(** * pkg/util/sets: the generic [Set[T comparable]] of generic.go

    [type Set[T comparable] map[T]struct{}] is a Go map used for its keys
    only.  A map value is modelled by the list of the keys it holds, in the
    order a [range] over it visits them.  Key comparison is Go's [==] on
    [T]: a boolean test that is symmetric and transitive, but that need not
    be reflexive (a floating-point NaN differs from itself) nor coincide
    with identity ([+0 == -0]).  Element types whose [==] can panic at run
    time (interfaces holding a slice, say) are outside the model.

    The lists stand for maps that exist: made by [New], by a literal or
    by an operation of the algebra.  The zero value of the type, the nil
    map, reads as empty but panics on assignment; it is told apart from
    the empty map in [Value], with [Insert_value] and [Delete_value].

    The first part gives the value semantics of every method (contents in,
    contents out); the second part puts the maps in a store addressed by
    references, so that allocation and aliasing can be stated. *)

From Stdlib Require Import Ascii String.
From Stdlib Require Import OrderedTypeEx.
From Stdlib Require Import Floats.SpecFloat.
From Stdlib Require Import List Bool ZArith NArith Lia.
From Stdlib Require Import Permutation Sorted.
Import ListNotations.

(** ** Kinds of package reflect *)

Module reflect.

(** [reflect.Kind], in the order of the Go declaration. *)
Inductive Kind : Set :=
| Invalid | Bool
| Int | Int8 | Int16 | Int32 | Int64
| Uint | Uint8 | Uint16 | Uint32 | Uint64 | Uintptr
| Float32 | Float64 | Complex64 | Complex128
| Array | Chan | Func | Interface | Map | Pointer | Slice
| String | Struct | UnsafePointer.

End reflect.

(** ** Element types

    What the code uses of its type parameter: the comparison [==] (through
    the map operations), the kind that [reflect.TypeOf(s).Key().Kind()]
    reports, and the four accessors of [reflect.Value] called by [List].
    An accessor is only ever called under the [case] of its own kinds;
    Go panics on the others, and the instances give a default there. *)

Class Comparable (T : Type) := {
  key_eqb : T -> T -> bool;
  Key_Kind : reflect.Kind;
  Value_Int : T -> Z;
  Value_Uint : T -> N;
  Value_Float : T -> spec_float;
  Value_String : T -> string
}.

Declare Scope key_scope.
Delimit Scope key_scope with key.
Infix "==" := key_eqb (at level 70, no associativity) : key_scope.
Local Open Scope key_scope.

(** The groups of kinds of the [switch] in [List]. *)
Inductive Order := ByInt | ByUint | ByFloat | ByString | Unordered.

Definition order_of (k : reflect.Kind) : Order :=
  match k with
  | reflect.Int | reflect.Int8 | reflect.Int16 | reflect.Int32
  | reflect.Int64 => ByInt
  | reflect.Uint | reflect.Uint8 | reflect.Uint16 | reflect.Uint32
  | reflect.Uint64 | reflect.Uintptr => ByUint
  | reflect.Float32 | reflect.Float64 => ByFloat
  | reflect.String => ByString
  | _ => Unordered
  end.

(** Go's element types used below.  [int64] and [uint64] hold the
    mathematical value; nothing here does arithmetic on keys, so the range
    of the machine type plays no role.  [float64] is the IEEE 754 datum
    of the standard library, whose [SFeqb] and [SFltb] are the comparisons
    [==] and [<] of the Go specification. *)
Definition int64 := Z.
Definition uint64 := N.
Definition float64 := spec_float.

#[export] Instance int64_Comparable : Comparable int64 := {|
  key_eqb := Z.eqb;
  Key_Kind := reflect.Int64;
  Value_Int := fun x => x;
  Value_Uint := fun _ => 0%N;
  Value_Float := fun _ => S754_nan;
  Value_String := fun _ => EmptyString
|}.

#[export] Instance uint64_Comparable : Comparable uint64 := {|
  key_eqb := N.eqb;
  Key_Kind := reflect.Uint64;
  Value_Int := fun _ => 0%Z;
  Value_Uint := fun x => x;
  Value_Float := fun _ => S754_nan;
  Value_String := fun _ => EmptyString
|}.

#[export] Instance float64_Comparable : Comparable float64 := {|
  key_eqb := SFeqb;
  Key_Kind := reflect.Float64;
  Value_Int := fun _ => 0%Z;
  Value_Uint := fun _ => 0%N;
  Value_Float := fun x => x;
  Value_String := fun _ => EmptyString
|}.

#[export] Instance string_Comparable : Comparable string := {|
  key_eqb := String.eqb;
  Key_Kind := reflect.String;
  Value_Int := fun _ => 0%Z;
  Value_Uint := fun _ => 0%N;
  Value_Float := fun _ => S754_nan;
  Value_String := fun x => x
|}.

#[export] Instance bool_Comparable : Comparable bool := {|
  key_eqb := Bool.eqb;
  Key_Kind := reflect.Bool;
  Value_Int := fun _ => 0%Z;
  Value_Uint := fun _ => 0%N;
  Value_Float := fun _ => S754_nan;
  Value_String := fun _ => EmptyString
|}.

(** Some [float64] values: 1.0 is [2^52 * 2^-52]. *)
Definition NaN : float64 := S754_nan.
Definition f_one : float64 := S754_finite false 4503599627370496 (-52).
Definition f_two : float64 := S754_finite false 4503599627370496 (-51).
Definition pos_zero : float64 := S754_zero false.
Definition neg_zero : float64 := S754_zero true.

(** ** package sort

    [sort.Slice] belongs to Go's standard library.  The class is its
    signature; [insertionSort] is the routine the library runs on slices
    of fewer than twelve elements: element [i] moves left while [less]
    puts it before its left neighbour. *)

Class SortSlice := {
  sort_Slice : forall {T : Type}, (T -> T -> bool) -> list T -> list T
}.

Section InsertionSort.
Context {T : Type}.
Variable less : T -> T -> bool.

(** [sorted_rev] is the prefix [data[a:i]] read from right to left. *)
Fixpoint sift (x : T) (sorted_rev : list T) : list T :=
  match sorted_rev with
  | [] => [x]
  | y :: rest => if less x y then y :: sift x rest else x :: y :: rest
  end.

Definition insertionSort (data : list T) : list T :=
  rev (fold_left (fun sorted_rev x => sift x sorted_rev) data []).

(** The loop invariant on the prefix read from the right: no element is
    [less] than one further left in the slice. *)
Definition descending (sorted_rev : list T) : Prop :=
  StronglySorted (fun a b => less a b = false) sorted_rev.
End InsertionSort.

#[export] Instance insertionSort_SortSlice : SortSlice :=
  {| sort_Slice := @insertionSort |}.

(** ** Value semantics of the methods *)

Section Methods.
Context {T : Type} `{Comparable T}.

(** The keys of a map, in the order of one iteration. *)
Definition Set_ := list T.

Implicit Types (s result walk other : Set_) (k key item : T).
Implicit Types (keys items : list T).

(** [_, ok := s[k]]: is some stored key [==] to [k]? *)
Definition mapaccess s k : bool := existsb (fun e => e == k) s.

(** [s[k] = struct{}{}]: a stored key that is [==] to [k] is overwritten
    by [k] (the run time updates the key for the kinds where two equal
    keys can differ, such as [+0] and [-0]); otherwise a new entry is
    added. *)
Fixpoint mapassign s k : Set_ :=
  match s with
  | [] => [k]
  | e :: s' => if e == k then k :: s' else e :: mapassign s' k
  end.

(** [delete(s, k)] *)
Fixpoint mapdelete s k : Set_ :=
  match s with
  | [] => []
  | e :: s' => if e == k then s' else e :: mapdelete s' k
  end.

(** The invariant of a map: no two entries have [==] keys. *)
Fixpoint distinct_keys s : bool :=
  match s with
  | [] => true
  | e :: s' => negb (mapaccess s' e) && distinct_keys s'
  end.

Definition wf s : Prop := distinct_keys s = true.

(** No key of the map is a NaN: every key is [==] to itself. *)
Definition self_equal s : bool := forallb (fun e => e == e) s.

(** On the contents of a map that exists; [Insert_value] below has the
    nil receiver. *)
Definition Insert s keys : Set_ := fold_left mapassign keys s.

Definition Delete s keys : Set_ := fold_left mapdelete keys s.

Definition Has s k : bool := mapaccess s k.

Definition HasAll s keys : bool := forallb (fun k => Has s k) keys.

Definition IsSuperset s (s2 : Set_) : bool :=
  forallb (fun item => Has s item) s2.

Definition HasAny s items : bool := existsb (fun item => Has s item) items.

(** [len(s)], a Go [int]: the number of entries, which never overflows. *)
Definition Len s : Z := Z.of_nat (length s).

Definition Equal s (s2 : Set_) : bool :=
  (Len s =? Len s2)%Z && IsSuperset s s2.

Definition New keys : Set_ :=
  fold_left (fun s k => Insert s [k]) keys [].

Definition Difference s (s2 : Set_) : Set_ :=
  fold_left
    (fun result key => if negb (Has s2 key) then Insert result [key]
                       else result)
    s (New []).

Definition Union s (s2 : Set_) : Set_ :=
  let result := New [] in
  let result := fold_left (fun result key => Insert result [key]) s result in
  fold_left (fun result key => Insert result [key]) s2 result.

(** The loop of [Intersection], for one choice of [walk] and [other]. *)
Definition walk_probe walk other : Set_ :=
  fold_left
    (fun result key => if Has other key then Insert result [key]
                       else result)
    walk (New []).

Definition Intersection s (s2 : Set_) : Set_ :=
  if (Len s <? Len s2)%Z then walk_probe s s2 else walk_probe s2 s.

(** The naive definition [{x | x in a and x in b}], for comparison with
    [Intersection]. *)
Definition Intersection_naive s (s2 : Set_) : Set_ :=
  filter (fun x => Has s2 x) s.

(** The comparison chosen by the [switch] on the key kind; [None] is the
    [less == nil] of the code. *)
Definition less_of_kind (k : reflect.Kind) : option (T -> T -> bool) :=
  match order_of k with
  | ByInt => Some (fun x y => (Value_Int x <? Value_Int y)%Z)
  | ByUint => Some (fun x y => (Value_Uint x <? Value_Uint y)%N)
  | ByFloat => Some (fun x y => SFltb (Value_Float x) (Value_Float y))
  | ByString =>
      Some (fun x y => String.ltb (Value_String x) (Value_String y))
  | Unordered => None
  end.

Definition List `{SortSlice} s : list T :=
  let res := fold_left (fun res k => res ++ [k]) s [] in
  match less_of_kind Key_Kind with
  | Some less => sort_Slice less res
  | None => res
  end.

(** [l] is strictly ascending for [less]. *)
Definition ascending (less : T -> T -> bool) (l : list T) : Prop :=
  StronglySorted (fun x y => less x y = true) l.

End Methods.

Arguments Set_ T : clear implicits.
Arguments Has : simpl never.

(** ** The zero value

    A variable of type [Set[T]] is nil until a map is assigned to it.
    Lookups, [len], [range] and [delete] treat a nil map as an empty one;
    an assignment [s[k] = struct{}{}] to a nil map panics. *)

Section ZeroValue.
Context {T : Type} `{Comparable T}.

Inductive Value := Nil | Made (m : Set_ T).

(** What the read-only methods see of a value. *)
Definition contents (v : Value) : Set_ T :=
  match v with
  | Nil => []
  | Made m => m
  end.

(** [s[k] = struct{}{}]; [None] is the panic on a nil map. *)
Definition assign_entry (v : Value) (k : T) : option Value :=
  match v with
  | Nil => None
  | Made m => Some (Made (mapassign m k))
  end.

(** [delete(s, k)], a no-op on a nil map. *)
Definition delete_entry (v : Value) (k : T) : Value :=
  match v with
  | Nil => Nil
  | Made m => Made (mapdelete m k)
  end.

(** [Insert] with its receiver: the loop body runs once per key, so a
    nil receiver panics unless there is no key. *)
Fixpoint Insert_value (v : Value) (keys : list T) : option Value :=
  match keys with
  | [] => Some v
  | k :: keys' =>
      match assign_entry v k with
      | None => None
      | Some v' => Insert_value v' keys'
      end
  end.

Definition Delete_value (v : Value) (keys : list T) : Value :=
  fold_left delete_entry keys v.

End ZeroValue.

Arguments Value T : clear implicits.

(** ** The ordered kinds and their natural order

    Stated apart from the code of [List], for comparison with it: the
    kinds of the Go language whose values have an order, in four
    families, and the order [<] of the language on each family: the
    order of the integers on the integer value of a key, signed or
    unsigned, the IEEE 754 order on its floating-point value, the
    lexical order by bytes on its string value. *)
Inductive Natural :=
  SignedInteger | UnsignedInteger | FloatingPoint | StringOrder.

Definition signed_integer_kinds : list reflect.Kind :=
  [reflect.Int; reflect.Int8; reflect.Int16; reflect.Int32; reflect.Int64].

Definition unsigned_integer_kinds : list reflect.Kind :=
  [reflect.Uint; reflect.Uint8; reflect.Uint16; reflect.Uint32;
   reflect.Uint64; reflect.Uintptr].

Definition floating_point_kinds : list reflect.Kind :=
  [reflect.Float32; reflect.Float64].

Definition string_kinds : list reflect.Kind := [reflect.String].

(** [k] has the underlying kind of family [o]. *)
Definition has_natural_order (k : reflect.Kind) (o : Natural) : Prop :=
  In k match o with
       | SignedInteger => signed_integer_kinds
       | UnsignedInteger => unsigned_integer_kinds
       | FloatingPoint => floating_point_kinds
       | StringOrder => string_kinds
       end.

Definition natural_less {T} `{Comparable T} (o : Natural) (x y : T) : bool :=
  match o with
  | SignedInteger => (Value_Int x <? Value_Int y)%Z
  | UnsignedInteger => (Value_Uint x <? Value_Uint y)%N
  | FloatingPoint => SFltb (Value_Float x) (Value_Float y)
  | StringOrder => String.ltb (Value_String x) (Value_String y)
  end.

(** The three operations of the set algebra, and what each computes on
    contents. *)
Inductive Algebra := OpDifference | OpUnion | OpIntersection.

Definition on_contents {T} `{Comparable T} (op : Algebra)
  : Set_ T -> Set_ T -> Set_ T :=
  match op with
  | OpDifference => Difference
  | OpUnion => Union
  | OpIntersection => Intersection
  end.

(** ** Reference semantics: maps in a store

    A Go map value is a reference.  The store holds the contents of every
    map allocated so far; [make] extends it.  Methods are state
    transformers over the store. *)

Module Store.
Section Store.
Context {T : Type} `{Comparable T}.

Definition Ref := nat.
Definition Heap := list (Set_ T).

Definition deref (h : Heap) (r : Ref) : Set_ T := nth r h [].

Fixpoint store (h : Heap) (r : Ref) (m : Set_ T) : Heap :=
  match h, r with
  | [], _ => []
  | _ :: h', O => m :: h'
  | c :: h', S r' => c :: store h' r' m
  end.

Definition M (A : Type) : Type := Heap -> A * Heap.

Definition ret {A} (a : A) : M A := fun h => (a, h).

Definition bind {A B} (m : M A) (f : A -> M B) : M B :=
  fun h => let (a, h') := m h in f a h'.

Notation "x <- m ;; f" := (bind m (fun x => f))
  (at level 61, m at next level, right associativity).
Notation "m ;; f" := (bind m (fun _ => f))
  (at level 61, right associativity).

(** [Set[T]{}]: a new, empty map. *)
Definition makemap : M Ref := fun h => (length h, h ++ [[]]).

Definition get (s : Ref) : M (Set_ T) := fun h => (deref h s, h).

Definition put (s : Ref) (m : Set_ T) : M unit :=
  fun h => (tt, store h s m).

(** [for _, x := range l { body }] over a slice, or over the keys a map
    holds when the loop starts. *)
Fixpoint for_range {A} (l : list A) (body : A -> M unit) : M unit :=
  match l with
  | [] => ret tt
  | x :: l' => body x ;; for_range l' body
  end.

Definition Insert (s : Ref) (keys : list T) : M unit :=
  for_range keys (fun k => m <- get s ;; put s (mapassign m k)).

Definition Delete (s : Ref) (keys : list T) : M unit :=
  for_range keys (fun k => m <- get s ;; put s (mapdelete m k)).

Definition Has (s : Ref) (k : T) : M bool :=
  m <- get s ;; ret (mapaccess m k).

Definition Len (s : Ref) : M Z :=
  m <- get s ;; ret (Z.of_nat (length m)).

Definition New (keys : list T) : M Ref :=
  s <- makemap ;;
  for_range keys (fun k => Insert s [k]) ;;
  ret s.

Definition Difference (s s2 : Ref) : M Ref :=
  result <- New [] ;;
  entries <- get s ;;
  for_range entries (fun key =>
    ok <- Has s2 key ;;
    if negb ok then Insert result [key] else ret tt) ;;
  ret result.

Definition Union (s s2 : Ref) : M Ref :=
  result <- New [] ;;
  entries <- get s ;;
  for_range entries (fun key => Insert result [key]) ;;
  entries2 <- get s2 ;;
  for_range entries2 (fun key => Insert result [key]) ;;
  ret result.

Definition Intersection (s s2 : Ref) : M Ref :=
  result <- New [] ;;
  n <- Len s ;;
  n2 <- Len s2 ;;
  let (walk, other) := if (n <? n2)%Z then (s, s2) else (s2, s) in
  entries <- get walk ;;
  for_range entries (fun key =>
    ok <- Has other key ;;
    if ok then Insert result [key] else ret tt) ;;
  ret result.

Definition run (op : Algebra) : Ref -> Ref -> M Ref :=
  match op with
  | OpDifference => Difference
  | OpUnion => Union
  | OpIntersection => Intersection
  end.

(** Every map of [h] has the same contents in [h']. *)
Definition unchanged (h h' : Heap) : Prop :=
  forall r, r < length h -> deref h' r = deref h r.

(** In store [h], no [Insert] and no [Delete] on [r] changes the
    contents of [r']. *)
Definition unaffected_by (h : Heap) (r' r : Ref) : Prop :=
  forall keys,
    deref (snd (Insert r keys h)) r' = deref h r' /\
    deref (snd (Delete r keys h)) r' = deref h r'.

(** What is stated of the outcome [(result, h')] of an operation of
    the algebra run on the maps [a] and [b] of store [h]: [result] is
    a reference that [h] did not hold; every map of [h], the operands
    among them, has its contents, length and members as before; the
    new map holds what the operation computes; and from then on a
    mutation of the result leaves every older map alone, and a mutation
    of an older map leaves the result alone. *)
Definition independent_result (op : Algebra) (a b : Ref) (h : Heap)
    (out : Ref * Heap) : Prop :=
  let (result, h') := out in
  length h <= result /\ result < length h' /\
  unchanged h h' /\
  (fst (Len a h') = fst (Len a h) /\
   forall k, fst (Has a k h') = fst (Has a k h)) /\
  (fst (Len b h') = fst (Len b h) /\
   forall k, fst (Has b k h') = fst (Has b k h)) /\
  deref h' result = on_contents op (deref h a) (deref h b) /\
  (forall r, r < length h ->
     unaffected_by h' r result /\ unaffected_by h' result r).

End Store.

Arguments Heap T : clear implicits.
Arguments M T A : clear implicits.

End Store.

(** ** Laws assumed of an element type and of [sort.Slice] *)

(** Go's [==] is symmetric and transitive on every comparable type; under
    each ordered kind it is the comparison of the value the matching
    accessor returns. *)
Class ComparableLaws (T : Type) `{Comparable T} : Prop := {
  key_eqb_sym : forall x y : T, (x == y) = (y == x);
  key_eqb_trans : forall x y z : T,
    (x == y) = true -> (y == z) = true -> (x == z) = true;
  key_eqb_Int : order_of Key_Kind = ByInt ->
    forall x y : T, (x == y) = (Value_Int x =? Value_Int y)%Z;
  key_eqb_Uint : order_of Key_Kind = ByUint ->
    forall x y : T, (x == y) = (Value_Uint x =? Value_Uint y)%N;
  key_eqb_Float : order_of Key_Kind = ByFloat ->
    forall x y : T, (x == y) = SFeqb (Value_Float x) (Value_Float y);
  key_eqb_String : order_of Key_Kind = ByString ->
    forall x y : T, (x == y) = String.eqb (Value_String x) (Value_String y)
}.

(** The requirement the documentation of [sort.Interface] puts on [Less],
    over the elements of the slice: irreflexive, transitive, and with a
    transitive negation. *)
Definition strict_weak_on {T} (less : T -> T -> bool) (l : list T) : Prop :=
  (forall x, In x l -> less x x = false) /\
  (forall x y z, In x l -> In y l -> In z l ->
     less x y = true -> less y z = true -> less x z = true) /\
  (forall x y z, In x l -> In y l -> In z l ->
     less x y = false -> less y z = false -> less x z = false).

(** [sort.Slice] only swaps elements, so its result is a permutation of
    its input whatever [less] is; when [less] meets the requirement, no
    element of the result is [less] than an earlier one. *)
Class SortSliceLaws `{SortSlice} : Prop := {
  sort_Slice_perm : forall (T : Type) (less : T -> T -> bool) (l : list T),
    Permutation l (sort_Slice less l);
  sort_Slice_sorted : forall (T : Type) (less : T -> T -> bool) (l : list T),
    strict_weak_on less l ->
    StronglySorted (fun x y => less y x = false) (sort_Slice less l)
}.

(** What the sorted listing needs of [less] on the keys of a map: the
    requirement of [sort.Slice], and that keys which [less] does not
    separate are [==]. *)
Definition strict_total_on {T} `{Comparable T} (less : T -> T -> bool)
    (l : list T) : Prop :=
  strict_weak_on less l /\
  (forall x y, In x l -> In y l ->
     less x y = false -> less y x = false -> (x == y) = true).

(** ** The order of [float64] values

    A value that is not a NaN is ranked by a triple of integers, ordered
    lexicographically: the class (negative infinity, negative, zero,
    positive, positive infinity), then exponent and mantissa, negated
    for negative values. *)
Definition rank (x : float64) : Z * Z * Z :=
  match x with
  | S754_zero _ => (0, 0, 0)
  | S754_infinity s => (if s then -2 else 2, 0, 0)
  | S754_nan => (0, 0, 0)
  | S754_finite s m e => if s then (-1, - e, Z.neg m) else (1, e, Z.pos m)
  end%Z.

Definition lexcmp (a b : Z * Z * Z) : comparison :=
  let '(a1, a2, a3) := a in
  let '(b1, b2, b3) := b in
  match (a1 ?= b1)%Z with
  | Eq => match (a2 ?= b2)%Z with
          | Eq => (a3 ?= b3)%Z
          | c => c
          end
  | c => c
  end.

Definition is_nan (x : float64) : bool :=
  match x with S754_nan => true | _ => false end.

(** ** Sets used as concrete inputs

    The string sets are those of set_test.go; the [float64] sets hold a
    NaN. *)
Definition set_123 : Set_ string :=
  New ["1"%string; "2"%string; "3"%string].
Definition set_1245 : Set_ string :=
  New ["1"%string; "2"%string; "4"%string; "5"%string].
Definition set_zyxa : Set_ string :=
  New ["z"%string; "y"%string; "x"%string; "a"%string].
Definition set_NaN : Set_ float64 := New [NaN].
Definition set_1_NaN : Set_ float64 := New [f_one; NaN].
Definition set_NaN_1 : Set_ float64 := New [NaN; f_one].
Definition set_2_NaN_1 : Set_ float64 := New [f_two; NaN; f_one; NaN].

(** Argument lists: one with a duplicate, one without, one with a NaN. *)
Definition keys_221 : list string := ["2"%string; "2"%string; "1"%string].
Definition keys_12 : list string := ["1"%string; "2"%string].
Definition keys_NaN_2 : list float64 := [NaN; f_two].

(** The comparison [List] uses on [float64] keys and on [string] keys. *)
Definition float64_less : float64 -> float64 -> bool :=
  fun x y => SFltb (Value_Float x) (Value_Float y).
Definition string_less : string -> string -> bool :=
  fun x y => String.ltb (Value_String x) (Value_String y).

(** * Properties *)

(** ** Keys and lookups *)

Section KeyFacts.
Context {T : Type} `{Comparable T} `{!ComparableLaws T}.
Implicit Types (s a b r : Set_ T) (k x y z e : T).

Lemma key_eqb_trans_l x y z :
  (x == y) = true -> (x == z) = true -> (y == z) = true.
Proof.
  intros Hxy Hxz. rewrite key_eqb_sym in Hxy.
  exact (key_eqb_trans _ _ _ Hxy Hxz).
Qed.

Lemma key_eqb_trans_r x y z :
  (x == z) = true -> (y == z) = true -> (x == y) = true.
Proof.
  intros Hxz Hyz. rewrite key_eqb_sym in Hyz.
  exact (key_eqb_trans _ _ _ Hxz Hyz).
Qed.

Lemma key_eqb_self_l x y : (x == y) = true -> (x == x) = true.
Proof. intro E. exact (key_eqb_trans_r _ _ _ E E). Qed.

Lemma key_eqb_self_r x y : (x == y) = true -> (y == y) = true.
Proof. intro E. exact (key_eqb_trans_l _ _ _ E E). Qed.

(** Keys that are [==] cannot be told apart by a third key. *)
Lemma key_eqb_compat x y z : (x == y) = true -> (x == z) = (y == z).
Proof.
  intro E. destruct (y == z) eqn:Eyz.
  - exact (key_eqb_trans _ _ _ E Eyz).
  - destruct (x == z) eqn:Exz; [|reflexivity].
    rewrite (key_eqb_trans_l _ _ _ E Exz) in Eyz. discriminate.
Qed.

Lemma Has_true_iff s k :
  Has s k = true <-> exists e, In e s /\ (e == k) = true.
Proof. apply existsb_exists. Qed.

Lemma Has_false_iff s k :
  Has s k = false <-> forall e, In e s -> (e == k) = false.
Proof.
  unfold Has, mapaccess. induction s as [|e s IH]; simpl.
  - split; [intros _ e []|reflexivity].
  - rewrite orb_false_iff, IH. split.
    + intros [E F] e' [<-|I]; auto.
    + intro F. split; [apply F; now left|intros e' I; apply F; now right].
Qed.

Lemma Has_cons e s k : Has (e :: s) k = (e == k) || Has s k.
Proof. reflexivity. Qed.

Lemma Has_app a b k : Has (a ++ b) k = Has a k || Has b k.
Proof. apply existsb_app. Qed.

Lemma Has_In s e : In e s -> (e == e) = true -> Has s e = true.
Proof. intros I E. apply Has_true_iff. now exists e. Qed.

(** A lookup does not distinguish [==] keys. *)
Lemma Has_compat s x y : (x == y) = true -> Has s x = Has s y.
Proof.
  intro E. unfold Has, mapaccess. induction s as [|e s IH]; simpl.
  - reflexivity.
  - rewrite IH. f_equal. rewrite !(key_eqb_sym e).
    now apply key_eqb_compat.
Qed.

Lemma Has_self s k : Has s k = true -> (k == k) = true.
Proof.
  intro E. apply Has_true_iff in E as (e & _ & E).
  exact (key_eqb_self_r _ _ E).
Qed.

Lemma wf_cons e s : wf (e :: s) <-> Has s e = false /\ wf s.
Proof.
  unfold wf; simpl. rewrite andb_true_iff, negb_true_iff. reflexivity.
Qed.

Lemma wf_nil : wf (@nil T).
Proof. reflexivity. Qed.

Lemma self_equal_iff s :
  self_equal s = true <-> forall e, In e s -> (e == e) = true.
Proof. apply forallb_forall. Qed.

Lemma Has_self_equal s e : self_equal s = true -> In e s -> Has s e = true.
Proof.
  intros S I. apply Has_In; [assumption|].
  now apply (proj1 (self_equal_iff s) S).
Qed.

(** *** Assignment and deletion of one key *)

Lemma mapassign_absent s k : Has s k = false -> mapassign s k = s ++ [k].
Proof.
  induction s as [|e s IH]; simpl; [reflexivity|].
  rewrite Has_cons, orb_false_iff. intros [-> F]. now rewrite IH.
Qed.

Lemma mapassign_length s k :
  length (mapassign s k) = if Has s k then length s else S (length s).
Proof.
  induction s as [|e s IH]; simpl; [reflexivity|].
  rewrite Has_cons. destruct (e == k); simpl; [reflexivity|].
  rewrite IH. now destruct (Has s k).
Qed.

Lemma Has_mapassign s k x : Has (mapassign s k) x = Has s x || (k == x).
Proof.
  induction s as [|e s IH]; simpl.
  - rewrite Has_cons. unfold Has; simpl. now rewrite orb_false_r.
  - destruct (e == k) eqn:E; rewrite !Has_cons.
    + rewrite (key_eqb_compat _ _ x E).
      now destruct (k == x), (Has s x).
    + rewrite IH. now rewrite orb_assoc.
Qed.

Lemma wf_mapassign s k : wf s -> wf (mapassign s k).
Proof.
  induction s as [|e s IH]; simpl; [reflexivity|].
  rewrite wf_cons. intros [F W]. destruct (e == k) eqn:E.
  - apply wf_cons. split; [|assumption].
    now rewrite <- (Has_compat s _ _ E).
  - apply wf_cons. split; [|now apply IH].
    rewrite Has_mapassign, F. simpl. now rewrite key_eqb_sym.
Qed.

Lemma self_equal_mapassign s k :
  self_equal (mapassign s k) = self_equal s && (k == k).
Proof.
  induction s as [|e s IH]; simpl.
  - now rewrite andb_true_r.
  - destruct (e == k) eqn:E; simpl.
    + rewrite (key_eqb_self_l _ _ E), (key_eqb_self_r _ _ E).
      simpl. now rewrite andb_true_r.
    + rewrite IH. now rewrite andb_assoc.
Qed.

Lemma mapdelete_absent s k : Has s k = false -> mapdelete s k = s.
Proof.
  induction s as [|e s IH]; simpl; [reflexivity|].
  rewrite Has_cons, orb_false_iff. intros [-> F]. now rewrite IH.
Qed.

(** *** [Insert], [Delete], [New] *)

Lemma Insert_cons s k keys : Insert s (k :: keys) = Insert (mapassign s k) keys.
Proof. reflexivity. Qed.

Lemma Has_Insert s keys x : Has (Insert s keys) x = Has s x || Has keys x.
Proof.
  revert s. induction keys as [|k keys IH]; intro s.
  - simpl. now rewrite orb_false_r.
  - rewrite Insert_cons, IH, Has_mapassign, Has_cons. now rewrite orb_assoc.
Qed.

Lemma wf_Insert s keys : wf s -> wf (Insert s keys).
Proof.
  revert s. induction keys as [|k keys IH]; intros s W; [assumption|].
  rewrite Insert_cons. now apply IH, wf_mapassign.
Qed.

Lemma self_equal_Insert s keys :
  self_equal (Insert s keys) = self_equal s && self_equal keys.
Proof.
  revert s. induction keys as [|k keys IH]; intro s.
  - simpl. now rewrite andb_true_r.
  - rewrite Insert_cons, IH, self_equal_mapassign. simpl.
    now rewrite andb_assoc.
Qed.

Lemma fold_Insert_one s keys :
  fold_left (fun result key => Insert result [key]) keys s = Insert s keys.
Proof.
  revert s. induction keys as [|k keys IH]; intro s; [reflexivity|apply IH].
Qed.

Lemma New_Insert keys : New keys = Insert [] keys.
Proof. apply fold_Insert_one. Qed.

Lemma wf_New keys : wf (New keys).
Proof. rewrite New_Insert. apply wf_Insert, wf_nil. Qed.

Lemma Has_New keys x : Has (New keys) x = Has keys x.
Proof. rewrite New_Insert. apply Has_Insert. Qed.

End KeyFacts.

(** ** Lists filtered by a test *)

Section FilterFacts.
Context {A : Type}.
Implicit Types (p q : A -> bool) (l : list A).

Lemma filter_none p l : (forall x, In x l -> p x = false) -> filter p l = [].
Proof.
  induction l as [|x l IH]; intro F; simpl; [reflexivity|].
  rewrite (F x (or_introl eq_refl)). apply IH. intros y I. apply F. now right.
Qed.

Lemma filter_all p l : forallb p l = true -> filter p l = l.
Proof.
  induction l as [|x l IH]; simpl; [reflexivity|].
  rewrite andb_true_iff. intros [-> F]. now rewrite IH.
Qed.

Lemma filter_length_le p l : length (filter p l) <= length l.
Proof.
  induction l as [|x l IH]; simpl; [lia|]. destruct (p x); simpl; lia.
Qed.

Lemma filter_length_full p l :
  length (filter p l) = length l -> forallb p l = true.
Proof.
  induction l as [|x l IH]; simpl; [reflexivity|].
  pose proof (filter_length_le p l). destruct (p x); simpl; intro E.
  - apply IH. lia.
  - lia.
Qed.

Lemma filter_length_split p l :
  length (filter p l) + length (filter (fun x => negb (p x)) l) = length l.
Proof.
  induction l as [|x l IH]; simpl; [reflexivity|].
  destruct (p x); simpl; lia.
Qed.

Lemma filter_length_either p q l :
  (forall x, In x l -> p x = true -> q x = false) ->
  length (filter (fun x => p x || q x) l) =
  length (filter p l) + length (filter q l).
Proof.
  induction l as [|x l IH]; intro D; simpl; [reflexivity|].
  assert (IHl := IH (fun y I => D y (or_intror I))).
  pose proof (D x (or_introl eq_refl)) as Dx.
  destruct (p x); simpl.
  - rewrite (Dx eq_refl). simpl. lia.
  - destruct (q x); simpl; lia.
Qed.

Lemma filter_perm p l l' :
  Permutation l l' -> Permutation (filter p l) (filter p l').
Proof.
  induction 1 as [|x l l' P IH|x y l|l l' l'' P IH P' IH']; simpl.
  - constructor.
  - destruct (p x); [now constructor|assumption].
  - destruct (p x), (p y); try reflexivity. apply perm_swap.
  - now transitivity (filter p l').
Qed.

Lemma filter_filter p q l :
  filter p (filter q l) = filter (fun x => q x && p x) l.
Proof.
  induction l as [|x l IH]; simpl; [reflexivity|].
  destruct (q x); simpl; [|assumption]. destruct (p x); now rewrite IH.
Qed.

End FilterFacts.

(** ** The loops that build a result set *)

Section LoopFacts.
Context {T : Type} `{Comparable T} `{!ComparableLaws T}.
Implicit Types (s a b r : Set_ T) (k x y z e : T).

(** Keys that the result does not hold yet, and that differ from one
    another, are appended in the order of the iteration. *)
Lemma fold_select (p : T -> bool) s r :
  wf s -> (forall e, In e s -> Has r e = false) ->
  fold_left (fun result key => if p key then Insert result [key]
                               else result) s r
  = r ++ filter p s.
Proof.
  revert r. induction s as [|e s IH]; intros r W F; simpl.
  - now rewrite app_nil_r.
  - apply wf_cons in W as [Fe W].
    assert (Fs : forall e', In e' s -> Has r e' = false)
      by (intros e' I; apply F; now right).
    destruct (p e).
    + rewrite (mapassign_absent r e (F e (or_introl eq_refl))).
      rewrite IH; [now rewrite <- app_assoc|assumption|].
      intros e' I. rewrite Has_app, (Fs e' I). simpl.
      rewrite Has_cons, orb_false_r, key_eqb_sym.
      exact (proj1 (Has_false_iff s e) Fe e' I).
    + now apply IH.
Qed.

Lemma Insert_fresh s r :
  wf s -> (forall e, In e s -> Has r e = false) -> Insert r s = r ++ s.
Proof.
  intros W F. rewrite <- fold_Insert_one.
  rewrite (fold_select (fun _ => true) s r W F).
  f_equal. apply filter_all, forallb_forall. reflexivity.
Qed.

Lemma Difference_filter s (s2 : Set_ T) :
  wf s -> Difference s s2 = filter (fun key => negb (Has s2 key)) s.
Proof.
  intro W. unfold Difference.
  now rewrite (fold_select (fun key => negb (Has s2 key)) s (New []) W).
Qed.

Lemma walk_probe_filter walk other :
  wf walk -> walk_probe walk other = filter (fun key => Has other key) walk.
Proof.
  intro W. unfold walk_probe.
  now rewrite (fold_select (fun key => Has other key) walk (New []) W).
Qed.

Lemma Union_Insert s (s2 : Set_ T) : Union s s2 = Insert (Insert [] s) s2.
Proof. unfold Union. now rewrite !fold_Insert_one. Qed.

Lemma Union_Insert_wf s (s2 : Set_ T) : wf s -> Union s s2 = Insert s s2.
Proof.
  intro W. rewrite Union_Insert. f_equal. now apply (Insert_fresh s []).
Qed.

(** *** Membership, invariant and NaN-freedom of the results *)

Lemma Has_Union a b x : Has (Union a b) x = Has a x || Has b x.
Proof. now rewrite Union_Insert, !Has_Insert. Qed.

Lemma wf_Union a b : wf (Union a b).
Proof. rewrite Union_Insert. apply wf_Insert, wf_Insert, wf_nil. Qed.

Lemma self_equal_Union a b :
  self_equal (Union a b) = self_equal a && self_equal b.
Proof. now rewrite Union_Insert, !self_equal_Insert. Qed.

Lemma Has_filter (p : T -> bool) s x :
  (forall y z, (y == z) = true -> p y = p z) ->
  Has (filter p s) x = Has s x && p x.
Proof.
  intro P. induction s as [|e s IH]; simpl; [reflexivity|].
  rewrite Has_cons. destruct (p e) eqn:Pe.
  - rewrite Has_cons, IH. destruct (e == x) eqn:E; simpl; [|reflexivity].
    now rewrite <- (P e x E), Pe.
  - rewrite IH. destruct (e == x) eqn:E; simpl; [|reflexivity].
    rewrite <- (P e x E), Pe. now rewrite andb_false_r.
Qed.

Lemma wf_filter (p : T -> bool) s : wf s -> wf (filter p s).
Proof.
  induction s as [|e s IH]; simpl; [trivial|].
  rewrite wf_cons. intros [F W]. destruct (p e); [|now apply IH].
  apply wf_cons. split; [|now apply IH].
  apply Has_false_iff. intros e' I. apply filter_In in I as [I _].
  exact (proj1 (Has_false_iff s e) F e' I).
Qed.

Lemma Has_Difference a b x :
  wf a -> Has (Difference a b) x = Has a x && negb (Has b x).
Proof.
  intro W. rewrite (Difference_filter a b W).
  apply (Has_filter (fun key => negb (Has b key))).
  intros y z E. now rewrite (Has_compat b y z E).
Qed.

Lemma Has_walk_probe a b x :
  wf a -> Has (walk_probe a b) x = Has a x && Has b x.
Proof.
  intro W. rewrite (walk_probe_filter a b W).
  apply (Has_filter (fun key => Has b key)).
  intros y z E. exact (Has_compat b y z E).
Qed.

Lemma Has_Intersection a b x :
  wf a -> wf b -> Has (Intersection a b) x = Has a x && Has b x.
Proof.
  intros Wa Wb. unfold Intersection. destruct (Len a <? Len b)%Z.
  - now apply Has_walk_probe.
  - rewrite andb_comm. now apply Has_walk_probe.
Qed.

Lemma wf_Difference a b : wf a -> wf (Difference a b).
Proof.
  intro W. rewrite Difference_filter by assumption. now apply wf_filter.
Qed.

Lemma wf_walk_probe a b : wf a -> wf (walk_probe a b).
Proof.
  intro W. rewrite walk_probe_filter by assumption. now apply wf_filter.
Qed.

Lemma wf_Intersection a b : wf a -> wf b -> wf (Intersection a b).
Proof.
  intros Wa Wb. unfold Intersection.
  destruct (Len a <? Len b)%Z; now apply wf_walk_probe.
Qed.

(** A key found by a probe is never a NaN. *)
Lemma self_equal_walk_probe a b : wf a -> self_equal (walk_probe a b) = true.
Proof.
  intro W. rewrite walk_probe_filter by assumption.
  apply self_equal_iff. intros e I. apply filter_In in I as [_ P].
  apply Has_true_iff in P as (e' & _ & E).
  exact (key_eqb_self_r _ _ E).
Qed.

Lemma self_equal_Intersection a b :
  wf a -> wf b -> self_equal (Intersection a b) = true.
Proof.
  intros Wa Wb. unfold Intersection.
  destruct (Len a <? Len b)%Z; now apply self_equal_walk_probe.
Qed.

End LoopFacts.

(** ** Counting matched keys, supersets and equality *)

Section CountFacts.
Context {T : Type} `{Comparable T} `{!ComparableLaws T}.
Implicit Types (s a b r : Set_ T) (k x y z e : T).

(** In a map, a key that is found matches exactly one entry. *)
Lemma wf_one_match b e :
  wf b -> Has b e = true -> length (filter (fun x => e == x) b) = 1.
Proof.
  induction b as [|x b IH]; [discriminate|].
  rewrite wf_cons, Has_cons. intros [F W] M. simpl.
  destruct (x == e) eqn:E.
  - rewrite key_eqb_sym, E. simpl. f_equal.
    rewrite filter_none; [reflexivity|]. intros y I.
    destruct (e == y) eqn:Ey; [|reflexivity].
    rewrite key_eqb_sym in Ey.
    rewrite <- (proj1 (Has_false_iff b x) F y I).
    symmetry. rewrite key_eqb_sym in E. exact (key_eqb_trans _ _ _ Ey E).
  - rewrite key_eqb_sym, E. simpl in M. now apply IH.
Qed.

(** The entries of [a] found in [b] are as many as the entries of [b]
    found in [a]. *)
Lemma matched_count a b :
  wf a -> wf b ->
  length (filter (fun e => Has b e) a) = length (filter (fun e => Has a e) b).
Proof.
  intros Wa Wb. induction a as [|e a IH]; simpl.
  - now rewrite filter_none.
  - apply wf_cons in Wa as [F Wa].
    assert (S : length (filter (fun x => Has (e :: a) x) b)
                = length (filter (fun x => e == x) b)
                  + length (filter (fun x => Has a x) b)).
    { apply (filter_length_either (fun x => e == x) (fun x => Has a x)).
      intros x _ E. rewrite key_eqb_sym in E.
      now rewrite (Has_compat a x e E). }
    rewrite S, <- (IH Wa). destruct (Has b e) eqn:M; simpl.
    + now rewrite (wf_one_match b e Wb M).
    + rewrite (filter_none (fun x => e == x) b); [reflexivity|].
      intros x I. rewrite key_eqb_sym.
      exact (proj1 (Has_false_iff b e) M x I).
Qed.

Lemma IsSuperset_iff a b :
  IsSuperset a b = true <-> forall e, In e b -> Has a e = true.
Proof. apply forallb_forall. Qed.

(** Every member of the argument is a member of a superset. *)
Lemma IsSuperset_Has a b x :
  IsSuperset a b = true -> Has b x = true -> Has a x = true.
Proof.
  intros S M. apply Has_true_iff in M as (e & I & E).
  rewrite <- (Has_compat a e x E). exact (proj1 (IsSuperset_iff a b) S e I).
Qed.

Lemma IsSuperset_members a b :
  self_equal b = true ->
  (forall x, Has b x = true -> Has a x = true) -> IsSuperset a b = true.
Proof.
  intros S M. apply IsSuperset_iff. intros e I.
  apply M. now apply Has_self_equal.
Qed.

(** A superset holds no fewer entries. *)
Lemma IsSuperset_length a b :
  wf a -> wf b -> IsSuperset a b = true -> length b <= length a.
Proof.
  intros Wa Wb S. rewrite <- (filter_all _ _ S) at 1.
  rewrite <- (matched_count a b Wa Wb). apply filter_length_le.
Qed.

(** The pigeonhole step behind [Equal]. *)
Lemma IsSuperset_swap a b :
  wf a -> wf b -> length a = length b ->
  IsSuperset a b = true -> IsSuperset b a = true.
Proof.
  intros Wa Wb L S. apply filter_length_full.
  rewrite (matched_count a b Wa Wb), (filter_all _ _ S). now symmetry.
Qed.

Lemma Len_eqb a b : (Len a =? Len b)%Z = (length a =? length b)%nat.
Proof.
  unfold Len. destruct (Nat.eqb_spec (length a) (length b)) as [E|N].
  - rewrite E. apply Z.eqb_refl.
  - apply Z.eqb_neq. lia.
Qed.

Lemma Equal_true_iff a b :
  Equal a b = true <-> length a = length b /\ IsSuperset a b = true.
Proof.
  unfold Equal. now rewrite andb_true_iff, Len_eqb, Nat.eqb_eq.
Qed.

Lemma Equal_swap a b : wf a -> wf b -> Equal a b = true -> Equal b a = true.
Proof.
  intros Wa Wb E. apply Equal_true_iff in E as [L S].
  apply Equal_true_iff. split; [now symmetry|now apply IsSuperset_swap].
Qed.

Lemma Equal_Has a b x :
  wf a -> wf b -> Equal a b = true -> Has a x = Has b x.
Proof.
  intros Wa Wb E. pose proof (Equal_swap a b Wa Wb E) as E'.
  apply Equal_true_iff in E as [_ S]. apply Equal_true_iff in E' as [_ S'].
  destruct (Has b x) eqn:M.
  - exact (IsSuperset_Has a b x S M).
  - destruct (Has a x) eqn:M'; [|reflexivity].
    rewrite (IsSuperset_Has b a x S' M') in M. discriminate.
Qed.

(** Maps without NaN keys that hold the same members are [Equal]. *)
Lemma members_Equal a b :
  wf a -> wf b -> self_equal a = true -> self_equal b = true ->
  (forall x, Has a x = Has b x) -> Equal a b = true.
Proof.
  intros Wa Wb Sa Sb M.
  assert (S : IsSuperset a b = true)
    by (apply IsSuperset_members; [assumption|intros x; now rewrite M]).
  assert (S' : IsSuperset b a = true)
    by (apply IsSuperset_members; [assumption|intros x; now rewrite M]).
  apply Equal_true_iff. split; [|assumption].
  pose proof (IsSuperset_length a b Wa Wb S).
  pose proof (IsSuperset_length b a Wb Wa S'). lia.
Qed.

(** [Equal] holds only between maps without NaN keys. *)
Lemma Equal_self_equal a b :
  wf a -> wf b -> Equal a b = true ->
  self_equal a = true /\ self_equal b = true.
Proof.
  intros Wa Wb E. pose proof (Equal_swap a b Wa Wb E) as E'.
  apply Equal_true_iff in E as [_ S]. apply Equal_true_iff in E' as [_ S'].
  split; apply self_equal_iff; intros e I.
  - exact (Has_self b e (proj1 (IsSuperset_iff b a) S' e I)).
  - exact (Has_self a e (proj1 (IsSuperset_iff a b) S e I)).
Qed.

End CountFacts.

(** ** The element types satisfy the laws *)

Section FloatOrder.
Implicit Types x y z : float64.

Lemma SFcompare_nan_l y : SFcompare S754_nan y = None.
Proof. reflexivity. Qed.

Lemma SFcompare_nan_r x : SFcompare x S754_nan = None.
Proof. now destruct x. Qed.

Lemma SFcompare_rank x y :
  is_nan x = false -> is_nan y = false ->
  SFcompare x y = Some (lexcmp (rank x) (rank y)).
Proof.
  destruct x as [sx|sx| |sx mx ex], y as [sy|sy| |sy my ey];
    try discriminate; intros _ _; simpl;
    try (destruct sx); try (destruct sy); try reflexivity.
  unfold lexcmp. rewrite Z.compare_opp, (Z.compare_antisym ex ey).
  destruct (ex ?= ey)%Z; reflexivity.
Qed.

Lemma lexcmp_Eq a b : lexcmp a b = Eq <-> a = b.
Proof.
  destruct a as [[a1 a2] a3], b as [[b1 b2] b3]; simpl.
  destruct (Z.compare_spec a1 b1), (Z.compare_spec a2 b2),
    (Z.compare_spec a3 b3); split; intro E;
    try discriminate; try reflexivity; try congruence;
    inversion E; lia.
Qed.

Lemma lexcmp_Lt a b :
  lexcmp a b = Lt <->
  (fst (fst a) < fst (fst b) \/
   (fst (fst a) = fst (fst b) /\
    (snd (fst a) < snd (fst b) \/
     (snd (fst a) = snd (fst b) /\ snd a < snd b))))%Z.
Proof.
  destruct a as [[a1 a2] a3], b as [[b1 b2] b3]; simpl.
  destruct (Z.compare_spec a1 b1), (Z.compare_spec a2 b2),
    (Z.compare_spec a3 b3); split; intro E;
    try discriminate; try reflexivity; lia.
Qed.

Lemma SFeqb_not_nan x y :
  SFeqb x y = true -> is_nan x = false /\ is_nan y = false.
Proof.
  unfold SFeqb. destruct x, y; simpl; try discriminate; auto.
Qed.

Lemma SFeqb_rank x y :
  is_nan x = false -> is_nan y = false ->
  (SFeqb x y = true <-> rank x = rank y).
Proof.
  intros Nx Ny. unfold SFeqb. rewrite (SFcompare_rank x y Nx Ny).
  rewrite <- lexcmp_Eq. destruct (lexcmp (rank x) (rank y));
    split; intro E; try discriminate; reflexivity.
Qed.

Lemma SFltb_rank x y :
  is_nan x = false -> is_nan y = false ->
  (SFltb x y = true <-> lexcmp (rank x) (rank y) = Lt).
Proof.
  intros Nx Ny. unfold SFltb. rewrite (SFcompare_rank x y Nx Ny).
  destruct (lexcmp (rank x) (rank y));
    split; intro E; try discriminate; reflexivity.
Qed.

Lemma SFeqb_self x : SFeqb x x = negb (is_nan x).
Proof.
  destruct (is_nan x) eqn:N.
  - destruct x; try discriminate. reflexivity.
  - simpl. now apply SFeqb_rank.
Qed.

Lemma SFeqb_sym x y : SFeqb x y = SFeqb y x.
Proof.
  destruct (is_nan x) eqn:Nx; [destruct x; try discriminate; now destruct y|].
  destruct (is_nan y) eqn:Ny; [destruct y; try discriminate; now destruct x|].
  apply eq_true_iff_eq. rewrite !SFeqb_rank by assumption.
  split; intro E; now symmetry.
Qed.

Lemma SFeqb_trans x y z :
  SFeqb x y = true -> SFeqb y z = true -> SFeqb x z = true.
Proof.
  intros E F. destruct (SFeqb_not_nan x y E) as [Nx Ny].
  destruct (SFeqb_not_nan y z F) as [_ Nz].
  apply SFeqb_rank in E; [|assumption..].
  apply SFeqb_rank in F; [|assumption..].
  apply SFeqb_rank; congruence.
Qed.

End FloatOrder.

Section FloatLess.
Implicit Types x y z : float64.

Lemma SFltb_not_nan x y :
  SFltb x y = true -> is_nan x = false /\ is_nan y = false.
Proof.
  unfold SFltb. destruct x, y; simpl; try discriminate; auto.
Qed.

Lemma SFltb_false_rank x y :
  is_nan x = false -> is_nan y = false ->
  (SFltb x y = false <-> lexcmp (rank x) (rank y) <> Lt).
Proof.
  intros Nx Ny. rewrite <- (SFltb_rank x y Nx Ny).
  symmetry. apply not_true_iff_false.
Qed.

Lemma SFltb_irrefl x : SFltb x x = false.
Proof.
  destruct (is_nan x) eqn:N; [destruct x; try discriminate; reflexivity|].
  apply SFltb_false_rank; [assumption..|]. rewrite lexcmp_Lt. lia.
Qed.

Lemma SFltb_trans x y z :
  SFltb x y = true -> SFltb y z = true -> SFltb x z = true.
Proof.
  intros E F. destruct (SFltb_not_nan x y E) as [Nx Ny].
  destruct (SFltb_not_nan y z F) as [_ Nz].
  apply SFltb_rank in E; [|assumption..].
  apply SFltb_rank in F; [|assumption..].
  apply SFltb_rank; [assumption..|].
  rewrite lexcmp_Lt in *. lia.
Qed.

Lemma SFltb_neg_trans x y z :
  is_nan x = false -> is_nan y = false -> is_nan z = false ->
  SFltb x y = false -> SFltb y z = false -> SFltb x z = false.
Proof.
  intros Nx Ny Nz E F.
  apply SFltb_false_rank in E; [|assumption..].
  apply SFltb_false_rank in F; [|assumption..].
  apply SFltb_false_rank; [assumption..|].
  rewrite lexcmp_Lt in *. lia.
Qed.

Lemma SFltb_total x y :
  is_nan x = false -> is_nan y = false ->
  SFltb x y = false -> SFltb y x = false -> SFeqb x y = true.
Proof.
  intros Nx Ny E F.
  apply SFltb_false_rank in E; [|assumption..].
  apply SFltb_false_rank in F; [|assumption..].
  apply SFeqb_rank; [assumption..|].
  rewrite lexcmp_Lt in *.
  destruct (rank x) as [[a1 a2] a3], (rank y) as [[b1 b2] b3].
  simpl in *. repeat f_equal; lia.
Qed.

End FloatLess.

Section StringLess.
Implicit Types x y z : string.

Lemma string_ltb_lt x y : String.ltb x y = true <-> String_as_OT.lt x y.
Proof.
  rewrite <- String_as_OT.cmp_lt. unfold String.ltb, String_as_OT.cmp.
  destruct (String.compare x y); split; intro E;
    try discriminate; reflexivity.
Qed.

Lemma string_ltb_irrefl x : String.ltb x x = false.
Proof.
  apply not_true_iff_false. rewrite string_ltb_lt. intro L.
  exact (String_as_OT.lt_not_eq x x L eq_refl).
Qed.

Lemma string_ltb_trans x y z :
  String.ltb x y = true -> String.ltb y z = true -> String.ltb x z = true.
Proof. rewrite !string_ltb_lt. apply String_as_OT.lt_trans. Qed.

Lemma string_ltb_cases x y :
  String.ltb x y = true \/ x = y \/ String.ltb y x = true.
Proof.
  rewrite !string_ltb_lt.
  destruct (String_as_OT.compare x y) as [L|E|G]; auto.
Qed.

Lemma string_ltb_total x y :
  String.ltb x y = false -> String.ltb y x = false -> String.eqb x y = true.
Proof.
  intros E F. destruct (string_ltb_cases x y) as [L|[->|G]]; try congruence.
  apply String.eqb_refl.
Qed.

Lemma string_ltb_neg_trans x y z :
  String.ltb x y = false -> String.ltb y z = false -> String.ltb x z = false.
Proof.
  intros E F. apply not_true_iff_false. intro L.
  destruct (string_ltb_cases x y) as [L'|[->|G]]; try congruence.
  rewrite (string_ltb_trans y x z G L) in F. discriminate.
Qed.

End StringLess.

#[export] Instance int64_Laws : ComparableLaws int64.
Proof.
  split; simpl; try discriminate.
  - intros x y. apply Z.eqb_sym.
  - intros x y z. rewrite !Z.eqb_eq. congruence.
  - reflexivity.
Qed.

#[export] Instance uint64_Laws : ComparableLaws uint64.
Proof.
  split; simpl; try discriminate.
  - intros x y. apply N.eqb_sym.
  - intros x y z. rewrite !N.eqb_eq. congruence.
  - reflexivity.
Qed.

#[export] Instance float64_Laws : ComparableLaws float64.
Proof.
  split; simpl; try discriminate.
  - exact SFeqb_sym.
  - exact SFeqb_trans.
  - reflexivity.
Qed.

#[export] Instance string_Laws : ComparableLaws string.
Proof.
  split; simpl; try discriminate.
  - intros x y. apply String.eqb_sym.
  - intros x y z. rewrite !String.eqb_eq. congruence.
  - reflexivity.
Qed.

#[export] Instance bool_Laws : ComparableLaws bool.
Proof.
  split; simpl; try discriminate.
  - intros [] []; reflexivity.
  - intros [] [] []; simpl; congruence.
Qed.

(** ** The insertion sort meets the contract of [sort.Slice] *)

Section InsertionSortFacts.
Context {T : Type} (less : T -> T -> bool).
Implicit Types (x y z : T) (l p u : list T).

Lemma sift_perm x p : Permutation (x :: p) (sift less x p).
Proof.
  induction p as [|y p IH]; simpl; [reflexivity|].
  destruct (less x y); [|reflexivity].
  rewrite perm_swap. now apply perm_skip.
Qed.

Lemma fold_sift_perm l p :
  Permutation (l ++ p) (fold_left (fun q x => sift less x q) l p).
Proof.
  revert p. induction l as [|x l IH]; intro p; simpl; [reflexivity|].
  rewrite <- IH. rewrite <- (sift_perm x p). apply Permutation_middle.
Qed.

Lemma insertionSort_perm l : Permutation l (insertionSort less l).
Proof.
  unfold insertionSort. rewrite <- Permutation_rev.
  rewrite <- fold_sift_perm. now rewrite app_nil_r.
Qed.

Lemma sift_descending u x p :
  strict_weak_on less u -> In x u -> incl p u ->
  descending less p -> descending less (sift less x p).
Proof.
  intros (Irr & Tr & Ntr) Ix. induction p as [|y p IH]; intros Ip D; simpl.
  - repeat constructor.
  - apply StronglySorted_inv in D as [D Fy].
    assert (Iy : In y u) by (apply Ip; now left).
    assert (Ip' : incl p u) by (intros z I; apply Ip; now right).
    rewrite Forall_forall in Fy.
    destruct (less x y) eqn:L.
    + constructor; [now apply IH|].
      apply Forall_forall. intros z I.
      apply (Permutation_in z (Permutation_sym (sift_perm x p))) in I.
      destruct I as [<-|I]; [|now apply Fy].
      destruct (less y x) eqn:L'; [|reflexivity].
      rewrite <- (Irr y Iy). symmetry. now apply (Tr y x y).
    + constructor; [now constructor; [|apply Forall_forall]|].
      constructor; [assumption|].
      apply Forall_forall. intros z I.
      apply (Ntr x y z); auto.
Qed.

Lemma fold_sift_descending u l p :
  strict_weak_on less u -> incl l u -> incl p u ->
  descending less p -> descending less (fold_left (fun q x => sift less x q) l p).
Proof.
  intro S. revert p. induction l as [|x l IH]; intros p Il Ip D; simpl.
  - assumption.
  - assert (Ix : In x u) by (apply Il; now left).
    apply IH.
    + intros z I. apply Il. now right.
    + intros z I.
      apply (Permutation_in z (Permutation_sym (sift_perm x p))) in I.
      destruct I as [<-|I]; auto.
    + now apply (sift_descending u).
Qed.

Lemma StronglySorted_snoc (R : T -> T -> Prop) l x :
  StronglySorted R l -> (forall y, In y l -> R y x) ->
  StronglySorted R (l ++ [x]).
Proof.
  induction l as [|y l IH]; intros S F; simpl.
  - repeat constructor.
  - apply StronglySorted_inv in S as [S Fy]. constructor.
    + apply IH; [assumption|]. intros z I. apply F. now right.
    + apply Forall_app. split; [assumption|].
      constructor; [|constructor]. apply F. now left.
Qed.

Lemma StronglySorted_rev (R : T -> T -> Prop) l :
  StronglySorted R l -> StronglySorted (fun a b => R b a) (rev l).
Proof.
  induction l as [|x l IH]; intro S; simpl; [constructor|].
  apply StronglySorted_inv in S as [S F]. rewrite Forall_forall in F.
  apply StronglySorted_snoc; [now apply IH|].
  intros y I. apply F. now apply in_rev.
Qed.

Lemma insertionSort_sorted l :
  strict_weak_on less l ->
  StronglySorted (fun x y => less y x = false) (insertionSort less l).
Proof.
  intro S. unfold insertionSort.
  apply (StronglySorted_rev (fun a b => less a b = false)).
  apply (fold_sift_descending l); auto using incl_refl.
  - intros z [].
  - constructor.
Qed.

End InsertionSortFacts.

#[export] Instance insertionSort_Laws : @SortSliceLaws insertionSort_SortSlice.
Proof.
  split.
  - intros T less l. apply insertionSort_perm.
  - intros T less l. apply insertionSort_sorted.
Qed.

(** ** The order of iteration does not matter to the observers *)

Section OrderIndependence.
Context {T : Type} `{Comparable T} `{!ComparableLaws T}.
Implicit Types (s a b : Set_ T) (k x y e : T).

Lemma Has_perm a b k : Permutation a b -> Has a k = Has b k.
Proof.
  induction 1 as [|e a b P IH|e e' a|a b c P IH P' IH'].
  - reflexivity.
  - now rewrite !Has_cons, IH.
  - rewrite !Has_cons. now destruct (e == k), (e' == k).
  - congruence.
Qed.

Lemma wf_perm a b : Permutation a b -> wf a -> wf b.
Proof.
  induction 1 as [|e a b P IH|e e' a|a b c P IH P' IH'].
  - trivial.
  - rewrite !wf_cons, (Has_perm a b e P). intros [F W]. auto.
  - rewrite !wf_cons, !Has_cons, !orb_false_iff.
    rewrite (key_eqb_sym e e'). tauto.
  - auto.
Qed.

Lemma self_equal_perm a b : Permutation a b -> self_equal a = self_equal b.
Proof.
  intro P. apply eq_true_iff_eq. rewrite !self_equal_iff.
  split; intros F e I; apply F.
  - exact (Permutation_in e (Permutation_sym P) I).
  - exact (Permutation_in e P I).
Qed.

Lemma Len_perm a b : Permutation a b -> Len a = Len b.
Proof. intro P. unfold Len. now rewrite (Permutation_length P). Qed.

Lemma IsSuperset_perm a a' b b' :
  Permutation a a' -> Permutation b b' -> IsSuperset a b = IsSuperset a' b'.
Proof.
  intros Pa Pb. apply eq_true_iff_eq. rewrite !IsSuperset_iff.
  split; intros F e I.
  - rewrite <- (Has_perm a a' e Pa). apply F.
    exact (Permutation_in e (Permutation_sym Pb) I).
  - rewrite (Has_perm a a' e Pa). apply F.
    exact (Permutation_in e Pb I).
Qed.

Lemma Equal_perm a a' b b' :
  Permutation a a' -> Permutation b b' -> Equal a b = Equal a' b'.
Proof.
  intros Pa Pb. unfold Equal.
  now rewrite (Len_perm a a' Pa), (Len_perm b b' Pb),
    (IsSuperset_perm a a' b b' Pa Pb).
Qed.

End OrderIndependence.

(** ** The sorted listing *)

Section ListFacts.
Context {T : Type} `{Comparable T} `{!ComparableLaws T}.
Context `{SortSlice} `{!SortSliceLaws}.
Implicit Types (s : Set_ T) (k x y e : T) (less : T -> T -> bool).

Lemma fold_append (l res : list T) :
  fold_left (fun res k => res ++ [k]) l res = res ++ l.
Proof.
  revert res. induction l as [|k l IH]; intro res; simpl.
  - now rewrite app_nil_r.
  - now rewrite IH, <- app_assoc.
Qed.

Lemma List_eq s :
  List s = match less_of_kind Key_Kind with
           | Some less => sort_Slice less s
           | None => s
           end.
Proof. unfold List. now rewrite fold_append. Qed.

(** The [switch] of [List] picks a comparison exactly for the signed,
    unsigned, floating-point and string kinds. *)
Lemma less_of_kind_Some (k : reflect.Kind) :
  order_of k <> Unordered <->
  exists less : T -> T -> bool, less_of_kind k = Some less.
Proof.
  unfold less_of_kind. destruct (order_of k); split;
    try (intros _; eexists; reflexivity); try discriminate.
  - intro N. now contradiction N.
  - intros [less L]. discriminate L.
Qed.

(** For each kind of the four families, the [switch] of [List] picks
    the natural order of the family. *)
Lemma less_of_kind_natural (k : reflect.Kind) (o : Natural) :
  has_natural_order k o -> less_of_kind k = Some (natural_less o).
Proof.
  unfold has_natural_order. destruct o; simpl; intro I;
    repeat (destruct I as [<-|I]; [reflexivity|]); destruct I.
Qed.

Lemma order_of_natural (k : reflect.Kind) (o : Natural) :
  has_natural_order k o -> order_of k = ByFloat -> o = FloatingPoint.
Proof.
  unfold has_natural_order. destruct o; simpl; intro I;
    repeat (destruct I as [<-|I]; [try discriminate; reflexivity|]);
    destruct I.
Qed.

(** Only a floating-point key can differ from itself. *)
Lemma self_equal_of_kind s :
  order_of Key_Kind <> Unordered ->
  (order_of Key_Kind = ByFloat -> self_equal s = true) ->
  self_equal s = true.
Proof.
  intros O F. destruct (order_of Key_Kind) eqn:K; auto;
    try (now contradiction O); apply self_equal_iff; intros e _.
  - rewrite (key_eqb_Int K). apply Z.eqb_refl.
  - rewrite (key_eqb_Uint K). apply N.eqb_refl.
  - rewrite (key_eqb_String K). apply String.eqb_refl.
Qed.

(** Whatever the kind and the keys, the listing is a rearrangement of
    the entries of the map. *)
Lemma List_perm s : Permutation s (List s).
Proof.
  rewrite List_eq. destruct (less_of_kind Key_Kind); [|reflexivity].
  apply sort_Slice_perm.
Qed.

Lemma not_nan_of_self e :
  order_of Key_Kind = ByFloat -> (e == e) = true ->
  is_nan (Value_Float e) = false.
Proof.
  intros K E. rewrite (key_eqb_Float K) in E.
  exact (proj1 (SFeqb_not_nan _ _ E)).
Qed.

(** On keys that are no NaN, the comparison chosen for an ordered kind
    is a strict total order up to [==]. *)
Lemma less_of_kind_total less s :
  less_of_kind Key_Kind = Some less -> self_equal s = true ->
  strict_total_on less s.
Proof.
  unfold less_of_kind. intros L S.
  pose proof (proj1 (self_equal_iff s) S) as Self.
  destruct (order_of Key_Kind) eqn:K; inversion L; subst less; clear L.
  - repeat split; intros *; intros;
      rewrite ?(key_eqb_Int K), ?Z.eqb_eq, ?Z.ltb_lt, ?Z.ltb_ge in *; lia.
  - repeat split; intros *; intros;
      rewrite ?(key_eqb_Uint K), ?N.eqb_eq, ?N.ltb_lt, ?N.ltb_ge in *; lia.
  - repeat split; intros *; intros.
    + apply SFltb_irrefl.
    + now apply (SFltb_trans _ (Value_Float y)).
    + apply (SFltb_neg_trans _ (Value_Float y));
        auto using not_nan_of_self.
    + rewrite (key_eqb_Float K).
      apply SFltb_total; eauto using not_nan_of_self.
  - repeat split; intros *; intros.
    + apply string_ltb_irrefl.
    + now apply (string_ltb_trans _ (Value_String y)).
    + now apply (string_ltb_neg_trans _ (Value_String y)).
    + rewrite (key_eqb_String K). now apply string_ltb_total.
Qed.

(** A list without [==] keys that [sort.Slice] has put in order is
    strictly ascending. *)
Lemma sorted_distinct_ascending less (l u : list T) :
  strict_total_on less u -> incl l u -> wf l ->
  StronglySorted (fun x y => less y x = false) l -> ascending less l.
Proof.
  intros [_ Tot]. unfold ascending.
  induction l as [|x l IH]; intros I W S; [constructor|].
  apply StronglySorted_inv in S as [S F]. apply wf_cons in W as [N W].
  assert (Il : incl l u) by (intros z J; apply I; now right).
  constructor; [now apply IH|].
  rewrite Forall_forall in *. intros y J.
  destruct (less x y) eqn:L; [reflexivity|].
  assert (E : (x == y) = true)
    by (apply Tot; [apply I; now left|apply I; now right|exact L|now apply F]).
  rewrite key_eqb_sym in E.
  rewrite (proj1 (Has_false_iff l x) N y J) in E. discriminate.
Qed.

Lemma List_ascending less s :
  wf s -> self_equal s = true -> less_of_kind Key_Kind = Some less ->
  ascending less (List s).
Proof.
  intros W S L.
  pose proof (less_of_kind_total less s L S) as Tot.
  apply (sorted_distinct_ascending less (List s) s Tot).
  - intros z I. exact (Permutation_in z (Permutation_sym (List_perm s)) I).
  - exact (wf_perm _ _ (List_perm s) W).
  - rewrite List_eq, L. apply sort_Slice_sorted. exact (proj1 Tot).
Qed.

(** Every member is listed once: it is [==] to exactly one element. *)
Lemma List_once s x :
  wf s -> Has s x = true ->
  length (filter (fun e => x == e) (List s)) = 1.
Proof.
  intros W M. apply wf_one_match.
  - exact (wf_perm _ _ (List_perm s) W).
  - now rewrite <- (Has_perm _ _ x (List_perm s)).
Qed.

End ListFacts.

(** ** The store: the methods on references compute the value semantics *)

Section StoreFacts.
Context {T : Type} `{Comparable T}.
Implicit Types (h : Store.Heap T) (r s result : Store.Ref) (m : Set_ T).
Implicit Types (keys entries : list T).

Lemma deref_old h h' r :
  r < length h -> Store.deref (h ++ h') r = Store.deref h r.
Proof. intro L. unfold Store.deref. now apply app_nth1. Qed.

Lemma deref_new h m : Store.deref (h ++ [m]) (length h) = m.
Proof. unfold Store.deref. now rewrite nth_middle. Qed.

Lemma store_length h r m : length (Store.store h r m) = length h.
Proof.
  revert r. induction h as [|c h IH]; intros [|r]; simpl; auto.
Qed.

Lemma store_new h m m' : Store.store (h ++ [m]) (length h) m' = h ++ [m'].
Proof. induction h as [|c h IH]; simpl; [reflexivity|now rewrite IH]. Qed.

Lemma deref_store_same h r m :
  r < length h -> Store.deref (Store.store h r m) r = m.
Proof.
  revert r. induction h as [|c h IH]; intros [|r]; simpl; try lia; auto.
  intro L. apply IH. lia.
Qed.

Lemma deref_store_other h r r' m :
  r <> r' -> Store.deref (Store.store h r m) r' = Store.deref h r'.
Proof.
  revert r r'. induction h as [|c h IH]; intros [|r] [|r'] N; simpl;
    try reflexivity; try congruence.
  apply IH. congruence.
Qed.

Lemma store_store h r m m' :
  Store.store (Store.store h r m) r m' = Store.store h r m'.
Proof.
  revert r. induction h as [|c h IH]; intros [|r]; simpl; auto.
  now rewrite IH.
Qed.

Lemma store_deref h r : Store.store h r (Store.deref h r) = h.
Proof.
  revert r. induction h as [|c h IH]; intros [|r]; simpl; auto.
  f_equal. apply IH.
Qed.

(** A loop that updates one map by a function of its contents. *)
Lemma for_range_update (step : Set_ T -> T -> Set_ T) s keys h :
  s < length h ->
  Store.for_range keys
    (fun k => Store.bind (Store.get s) (fun m => Store.put s (step m k))) h
  = (tt, Store.store h s (fold_left step keys (Store.deref h s))).
Proof.
  revert h. induction keys as [|k keys IH]; intros h L; simpl.
  - unfold Store.ret. now rewrite store_deref.
  - unfold Store.bind at 1. simpl. unfold Store.bind at 1. simpl.
    rewrite IH by now rewrite store_length.
    now rewrite store_store, deref_store_same.
Qed.

Lemma Insert_run s keys h :
  s < length h ->
  Store.Insert s keys h = (tt, Store.store h s (Insert (Store.deref h s) keys)).
Proof. apply for_range_update. Qed.

Lemma Delete_run s keys h :
  s < length h ->
  Store.Delete s keys h = (tt, Store.store h s (Delete (Store.deref h s) keys)).
Proof. apply for_range_update. Qed.

(** The loop of the algebraic operations: each key of [entries] that
    passes the test [f] on its presence in [s2] is inserted in
    [result]. *)
Lemma for_range_select (f : bool -> bool) result (s2 : Store.Ref) entries h :
  result < length h -> s2 <> result ->
  Store.for_range entries
    (fun key => Store.bind (Store.Has s2 key) (fun ok =>
       if f ok then Store.Insert result [key] else Store.ret tt)) h
  = (tt, Store.store h result
           (fold_left
              (fun acc key =>
                 if f (Has (Store.deref h s2) key) then Insert acc [key]
                 else acc)
              entries (Store.deref h result))).
Proof.
  intros L N. revert h L.
  induction entries as [|key entries IH]; intros h L; simpl.
  - unfold Store.ret. now rewrite store_deref.
  - unfold Store.bind at 1. unfold Store.Has at 1.
    unfold Store.bind at 1. simpl. unfold Store.ret at 1.
    destruct (f (Has (Store.deref h s2) key)) eqn:F.
    + change (mapaccess (Store.deref h s2) key)
        with (Has (Store.deref h s2) key). rewrite F.
      rewrite Insert_run by assumption.
      rewrite IH by now rewrite store_length.
      rewrite store_store, deref_store_same by assumption.
      now rewrite deref_store_other by congruence.
    + change (mapaccess (Store.deref h s2) key)
        with (Has (Store.deref h s2) key). rewrite F.
      unfold Store.ret. now apply IH.
Qed.

End StoreFacts.

Section StoreRuns.
Context {T : Type} `{Comparable T}.
Implicit Types (h : Store.Heap T) (r s result : Store.Ref) (m : Set_ T).
Implicit Types (keys entries : list T).

Lemma New_empty_run h : Store.New [] h = (length h, h ++ [[]]).
Proof. reflexivity. Qed.

Lemma for_range_Insert_one result entries h :
  result < length h ->
  Store.for_range entries (fun key => Store.Insert result [key]) h
  = (tt, Store.store h result (Insert (Store.deref h result) entries)).
Proof.
  revert h. induction entries as [|key entries IH]; intros h L; simpl.
  - unfold Store.ret. now rewrite store_deref.
  - unfold Store.bind at 1. rewrite Insert_run by assumption.
    rewrite IH by now rewrite store_length.
    now rewrite store_store, deref_store_same.
Qed.

Lemma New_run keys h : Store.New keys h = (length h, h ++ [New keys]).
Proof.
  unfold Store.New, Store.bind, Store.makemap.
  rewrite for_range_Insert_one by (rewrite length_app; simpl; lia).
  unfold Store.ret. rewrite deref_new, store_new.
  now rewrite New_Insert.
Qed.

Lemma Difference_run s (s2 : Store.Ref) h :
  s < length h -> s2 < length h ->
  Store.Difference s s2 h
  = (length h, h ++ [Difference (Store.deref h s) (Store.deref h s2)]).
Proof.
  intros L L2. unfold Store.Difference.
  unfold Store.bind at 1. rewrite New_empty_run.
  unfold Store.bind at 1. unfold Store.get at 1.
  unfold Store.bind at 1.
  rewrite (for_range_select negb) by (rewrite ?length_app; simpl; lia).
  unfold Store.ret.
  rewrite deref_new, store_new, !deref_old by assumption.
  reflexivity.
Qed.

Lemma Union_run s (s2 : Store.Ref) h :
  s < length h -> s2 < length h ->
  Store.Union s s2 h
  = (length h, h ++ [Union (Store.deref h s) (Store.deref h s2)]).
Proof.
  intros L L2. unfold Store.Union.
  unfold Store.bind at 1. rewrite New_empty_run.
  unfold Store.bind at 1. unfold Store.get at 1.
  unfold Store.bind at 1.
  rewrite for_range_Insert_one by (rewrite length_app; simpl; lia).
  rewrite deref_new, store_new, deref_old by assumption.
  unfold Store.bind at 1. unfold Store.get at 1.
  unfold Store.bind at 1.
  rewrite for_range_Insert_one by (rewrite length_app; simpl; lia).
  rewrite deref_new, store_new, deref_old by assumption.
  unfold Store.ret, Union. now rewrite !fold_Insert_one.
Qed.

Lemma Intersection_run s (s2 : Store.Ref) h :
  s < length h -> s2 < length h ->
  Store.Intersection s s2 h
  = (length h, h ++ [Intersection (Store.deref h s) (Store.deref h s2)]).
Proof.
  intros L L2. unfold Store.Intersection.
  unfold Store.bind at 1. rewrite New_empty_run.
  unfold Store.bind at 1. unfold Store.Len at 1.
  unfold Store.bind at 1. unfold Store.get at 1. unfold Store.ret at 1.
  unfold Store.bind at 1. unfold Store.Len at 1.
  unfold Store.bind at 1. unfold Store.get at 1. unfold Store.ret at 1.
  rewrite !deref_old by assumption.
  unfold Intersection, Len.
  destruct (Z.of_nat (length (Store.deref h s))
            <? Z.of_nat (length (Store.deref h s2)))%Z.
  - unfold Store.bind at 1. unfold Store.get at 1.
    unfold Store.bind at 1.
    rewrite (for_range_select (fun ok => ok))
      by (rewrite ?length_app; simpl; lia).
    unfold Store.ret.
    rewrite deref_new, store_new, !deref_old by assumption.
    reflexivity.
  - unfold Store.bind at 1. unfold Store.get at 1.
    unfold Store.bind at 1.
    rewrite (for_range_select (fun ok => ok))
      by (rewrite ?length_app; simpl; lia).
    unfold Store.ret.
    rewrite deref_new, store_new, !deref_old by assumption.
    reflexivity.
Qed.

Lemma run_on_contents (op : Algebra) s (s2 : Store.Ref) h :
  s < length h -> s2 < length h ->
  Store.run op s s2 h
  = (length h,
     h ++ [on_contents op (Store.deref h s) (Store.deref h s2)]).
Proof.
  destruct op; simpl.
  - apply Difference_run.
  - apply Union_run.
  - apply Intersection_run.
Qed.

End StoreRuns.

(** ** The invariant is kept by every operation *)

Section Invariant.
Context {T : Type} `{Comparable T} `{!ComparableLaws T}.
Implicit Types (s a b : Set_ T) (k x y e : T).

Lemma Has_mapdelete_le s k x : Has (mapdelete s k) x = true -> Has s x = true.
Proof.
  induction s as [|e s IH]; simpl; [trivial|].
  destruct (e == k); rewrite !Has_cons.
  - intros ->. apply orb_true_r.
  - destruct (e == x); simpl; auto.
Qed.

Lemma wf_mapdelete s k : wf s -> wf (mapdelete s k).
Proof.
  induction s as [|e s IH]; simpl; [trivial|].
  rewrite wf_cons. intros [F W]. destruct (e == k); [assumption|].
  apply wf_cons. split; [|now apply IH].
  destruct (Has (mapdelete s k) e) eqn:M; [|reflexivity].
  now rewrite (Has_mapdelete_le s k e M) in F.
Qed.

Lemma wf_Delete s keys : wf s -> wf (Delete s keys).
Proof.
  revert s. induction keys as [|k keys IH]; intros s W; [assumption|].
  apply IH. now apply wf_mapdelete.
Qed.

Lemma wf_on_contents (op : Algebra) a b :
  wf a -> wf b -> wf (on_contents op a b).
Proof.
  intros Wa Wb. destruct op; simpl.
  - now apply wf_Difference.
  - apply wf_Union.
  - now apply wf_Intersection.
Qed.

End Invariant.

(** ** The order of iteration does not matter to the results

    Two iterations over one map may visit its keys in different orders.
    The results of the operations on rearranged operands are
    rearrangements of one another, so by the lemmas above no observer
    tells them apart. *)

Section IterationOrder.
Context {T : Type} `{Comparable T} `{!ComparableLaws T}.
Implicit Types (s a b : Set_ T) (k x y e : T).

(** Every map is the [New] of its keys. *)
Lemma New_wf s : wf s -> New s = s.
Proof.
  intro W. rewrite New_Insert. apply (Insert_fresh s [] W).
  intros e _. reflexivity.
Qed.

Lemma mapassign_perm s k :
  wf s ->
  Permutation (mapassign s k) (filter (fun e => negb (e == k)) s ++ [k]).
Proof.
  induction s as [|e s IH]; simpl; [reflexivity|].
  rewrite wf_cons. intros [F W]. destruct (e == k) eqn:E; simpl.
  - rewrite filter_all; [apply Permutation_cons_append|].
    apply forallb_forall. intros e' I. apply negb_true_iff.
    rewrite <- (proj1 (Has_false_iff s e) F e' I).
    rewrite !(key_eqb_sym e'). symmetry. now apply key_eqb_compat.
  - apply perm_skip. now apply IH.
Qed.

Lemma Insert_perm s keys :
  wf s -> wf keys ->
  Permutation (Insert s keys) (filter (fun e => negb (Has keys e)) s ++ keys).
Proof.
  revert s. induction keys as [|k keys IH]; intros s W Wk.
  - simpl. rewrite app_nil_r, filter_all; [reflexivity|].
    now apply forallb_forall.
  - apply wf_cons in Wk as [F Wk]. rewrite Insert_cons.
    rewrite (IH (mapassign s k) (wf_mapassign s k W) Wk).
    rewrite (filter_perm (fun e => negb (Has keys e)) _ _
               (mapassign_perm s k W)).
    rewrite filter_app, filter_filter. simpl. rewrite F. simpl.
    rewrite <- app_assoc. simpl.
    apply Permutation_app_tail.
    rewrite (filter_ext (fun x => negb (x == k) && negb (Has keys x))
                        (fun e => negb (Has (k :: keys) e))); [reflexivity|].
    intro x. now rewrite Has_cons, negb_orb, (key_eqb_sym k x).
Qed.

Lemma Union_perm_filter a b :
  wf a -> wf b ->
  Permutation (Union a b) (filter (fun e => negb (Has b e)) a ++ b).
Proof.
  intros Wa Wb. rewrite Union_Insert_wf by assumption. now apply Insert_perm.
Qed.

Lemma filter_Has_perm (f : bool -> bool) a a' b b' :
  Permutation a a' -> Permutation b b' ->
  Permutation (filter (fun e => f (Has b e)) a)
              (filter (fun e => f (Has b' e)) a').
Proof.
  intros Pa Pb.
  rewrite (filter_ext (fun e => f (Has b e)) (fun e => f (Has b' e)))
    by (intro e; now rewrite (Has_perm b b' e Pb)).
  now apply filter_perm.
Qed.

Lemma on_contents_perm (op : Algebra) a a' b b' :
  wf a -> wf b -> Permutation a a' -> Permutation b b' ->
  Permutation (on_contents op a b) (on_contents op a' b').
Proof.
  intros Wa Wb Pa Pb.
  pose proof (wf_perm a a' Pa Wa) as Wa'.
  pose proof (wf_perm b b' Pb Wb) as Wb'.
  destruct op; simpl.
  - rewrite !Difference_filter by assumption.
    now apply (filter_Has_perm negb).
  - rewrite !Union_perm_filter by assumption.
    apply Permutation_app; [|assumption].
    now apply (filter_Has_perm negb).
  - unfold Intersection.
    rewrite <- (Len_perm a a' Pa), <- (Len_perm b b' Pb).
    destruct (Len a <? Len b)%Z; rewrite !walk_probe_filter by assumption.
    + now apply (filter_Has_perm (fun ok => ok)).
    + now apply (filter_Has_perm (fun ok => ok)).
Qed.

(** So a comparison of two results by [Equal] has the same outcome
    whatever orders the iterations over the four operands took. *)
Lemma Equal_on_contents_perm (op op' : Algebra) a a' b b' c c' d d' :
  wf a -> wf b -> wf c -> wf d ->
  Permutation a a' -> Permutation b b' ->
  Permutation c c' -> Permutation d d' ->
  Equal (on_contents op a b) (on_contents op' c d)
  = Equal (on_contents op a' b') (on_contents op' c' d').
Proof.
  intros Wa Wb Wc Wd Pa Pb Pc Pd.
  apply Equal_perm; now apply on_contents_perm.
Qed.

End IterationOrder.

(** * The claims *)

Section SetClaims.
Context {T : Type} `{Comparable T} `{!ComparableLaws T}.
Implicit Types (s a b c : Set_ T) (k x y e : T).

(** C1, as amended.  [Equal a b] implies that [a] and [b] hold the same
    members, and the pigeonhole step holds for all maps: equal length
    and [a] a superset of [b] make [b] a superset of [a].  The converse,
    same members implies [Equal], holds for maps without a NaN key. *)
Theorem Equal_iff_same_members a b :
  wf a -> wf b ->
  (Equal a b = true -> forall x, Has a x = Has b x) /\
  (self_equal a = true -> self_equal b = true ->
     (Equal a b = true <-> forall x, Has a x = Has b x)) /\
  (Len a = Len b -> IsSuperset a b = true -> IsSuperset b a = true).
Proof.
  intros Wa Wb. split; [|split].
  - intros E x. now apply Equal_Has.
  - intros Sa Sb. split.
    + intros E x. now apply Equal_Has.
    + now apply members_Equal.
  - unfold Len. intros L S. apply IsSuperset_swap; auto. lia.
Qed.

(** C3.  The entries of [a] split into those of [a.Difference(b)] and
    as many as [b.Intersection(a)] holds. *)
Theorem Difference_Intersection_Len a b :
  wf a -> wf b ->
  (Len (Difference a b) + Len (Intersection b a))%Z = Len a.
Proof.
  intros Wa Wb.
  assert (E : length (Intersection b a)
              = length (filter (fun key => Has b key) a)).
  { unfold Intersection. destruct (Len b <? Len a)%Z.
    - rewrite walk_probe_filter by assumption.
      symmetry. now apply matched_count.
    - now rewrite walk_probe_filter. }
  unfold Len. rewrite E, Difference_filter by assumption.
  pose proof (filter_length_split (fun key => Has b key) a). lia.
Qed.

(** C4, as amended.  [Union] holds the keys found in either operand.
    On maps without a NaN key it is commutative, associative and
    idempotent up to [Equal]. *)
Theorem Union_laws a b c :
  wf a -> wf b -> wf c ->
  (forall x, Has (Union a b) x = Has a x || Has b x) /\
  (self_equal a = true -> self_equal b = true -> self_equal c = true ->
     Equal (Union a b) (Union b a) = true /\
     Equal (Union (Union a b) c) (Union a (Union b c)) = true /\
     Equal (Union a a) a = true).
Proof.
  intros Wa Wb Wc. split; [intro x; apply Has_Union|].
  intros Sa Sb Sc. repeat split.
  - apply members_Equal; try apply wf_Union.
    + now rewrite self_equal_Union, Sa, Sb.
    + now rewrite self_equal_Union, Sa, Sb.
    + intro x. rewrite !Has_Union. apply orb_comm.
  - apply members_Equal; try apply wf_Union.
    + now rewrite !self_equal_Union, Sa, Sb, Sc.
    + now rewrite !self_equal_Union, Sa, Sb, Sc.
    + intro x. rewrite !Has_Union. now rewrite orb_assoc.
  - apply members_Equal; try apply wf_Union; try assumption.
    + now rewrite self_equal_Union, Sa.
    + intro x. rewrite Has_Union. apply orb_diag.
Qed.

(** C5, as amended.  [Intersection] holds the keys found in both
    operands; it is commutative and associative up to [Equal]; on a map
    without a NaN key it is idempotent. *)
Theorem Intersection_laws a b c :
  wf a -> wf b -> wf c ->
  (forall x, Has (Intersection a b) x = Has a x && Has b x) /\
  Equal (Intersection a b) (Intersection b a) = true /\
  Equal (Intersection (Intersection a b) c)
        (Intersection a (Intersection b c)) = true /\
  (self_equal a = true -> Equal (Intersection a a) a = true).
Proof.
  intros Wa Wb Wc.
  pose proof (wf_Intersection a b Wa Wb) as Wab.
  pose proof (wf_Intersection b c Wb Wc) as Wbc.
  repeat split.
  - intro x. now apply Has_Intersection.
  - apply members_Equal;
      auto using wf_Intersection, self_equal_Intersection.
    intro x. rewrite !Has_Intersection by assumption. apply andb_comm.
  - apply members_Equal;
      auto using wf_Intersection, self_equal_Intersection.
    intro x. rewrite !Has_Intersection by assumption.
    now rewrite andb_assoc.
  - intro Sa. apply members_Equal;
      auto using wf_Intersection, self_equal_Intersection.
    intro x. rewrite Has_Intersection by assumption. apply andb_diag.
Qed.

(** C6, as amended.  Every set is a superset of the empty set; the
    empty set is a superset of the empty set only; the members of the
    argument of a true [IsSuperset] are members of the receiver; and
    when no key of the argument is a NaN, [IsSuperset] is exactly the
    inclusion of the members. *)
Theorem IsSuperset_inclusion a b :
  IsSuperset a (New []) = true /\
  (IsSuperset (New []) a = true <-> Len a = 0%Z) /\
  (IsSuperset a b = true -> forall x, Has b x = true -> Has a x = true) /\
  (self_equal b = true ->
     (IsSuperset a b = true <->
      forall x, Has b x = true -> Has a x = true)).
Proof.
  split; [reflexivity|]. split; [|split].
  - destruct a as [|e a]; [now split|]. unfold Len. simpl length.
    split; [discriminate|lia].
  - intros S x. now apply IsSuperset_Has.
  - intro Sb. split.
    + intros S x. now apply IsSuperset_Has.
    + now apply IsSuperset_members.
Qed.

(** C8.  Deleting a key that is not a member gives back the very same
    contents, hence the same length and members; inserting a member
    keeps the length and the members. *)
Theorem Delete_absent_Insert_present s x :
  (Has s x = false ->
     Delete s [x] = s /\ Len (Delete s [x]) = Len s /\
     forall y, Has (Delete s [x]) y = Has s y) /\
  (Has s x = true ->
     Len (Insert s [x]) = Len s /\
     forall y, Has (Insert s [x]) y = Has s y).
Proof.
  split; intro M.
  - assert (E : Delete s [x] = s) by (simpl; now apply mapdelete_absent).
    now rewrite E.
  - split.
    + unfold Len. simpl. now rewrite mapassign_length, M.
    + intro y. simpl. rewrite Has_mapassign.
      destruct (x == y) eqn:E; [|apply orb_false_r].
      rewrite <- (Has_compat s x y E), M. reflexivity.
Qed.

(** C9.  Walking [a] and probing [b] gives the same set as walking [b]
    and probing [a]: [Equal], same members, same length.  So whichever
    branch the comparison of the lengths takes, [Intersection] is
    [Equal] to the naive definition and holds the members of both. *)
Theorem Intersection_branch_irrelevant a b :
  wf a -> wf b ->
  Equal (walk_probe a b) (walk_probe b a) = true /\
  (forall x, Has (walk_probe a b) x = Has (walk_probe b a) x) /\
  Len (walk_probe a b) = Len (walk_probe b a) /\
  Equal (Intersection a b) (Intersection_naive a b) = true /\
  (forall x, Has (Intersection a b) x = Has a x && Has b x).
Proof.
  intros Wa Wb.
  assert (M : forall x, Has (walk_probe a b) x = Has (walk_probe b a) x).
  { intro x. rewrite !Has_walk_probe by assumption. apply andb_comm. }
  assert (E : Equal (walk_probe a b) (walk_probe b a) = true)
    by (apply members_Equal;
        auto using wf_walk_probe, self_equal_walk_probe).
  repeat split; try assumption.
  - unfold Len. f_equal. now apply Equal_true_iff in E as [L _].
  - unfold Intersection_naive. rewrite <- (walk_probe_filter a b Wa).
    unfold Intersection. destruct (Len a <? Len b)%Z.
    + apply members_Equal;
        auto using wf_walk_probe, self_equal_walk_probe.
    + apply Equal_swap; auto using wf_walk_probe.
  - intro x. now apply Has_Intersection.
Qed.

(** C10.  [Equal] is symmetric. *)
Theorem Equal_symmetric a b : wf a -> wf b -> Equal a b = Equal b a.
Proof.
  intros Wa Wb. apply eq_true_iff_eq. split; now apply Equal_swap.
Qed.

End SetClaims.

Section ListClaim.
Context {T : Type} `{Comparable T} `{!ComparableLaws T}.
Context `{SortSlice} `{!SortSliceLaws}.
Implicit Types (s : Set_ T) (k x y e : T) (less : T -> T -> bool).

(** C2, as amended.  For a key type whose kind is a signed-integer
    kind ([Int], [Int8], [Int16], [Int32], [Int64]), an unsigned-integer
    kind ([Uint], [Uint8], [Uint16], [Uint32], [Uint64], [Uintptr]), a
    floating-point kind ([Float32], [Float64]) or [String], [List]
    returns a rearrangement of the entries in which every member occurs
    once; for the integer and string kinds, and for the floating-point
    kinds when no key is a NaN, the listing is strictly ascending for
    the natural order of the kind and lists members only. *)
Theorem List_sorted_once s (o : Natural) :
  wf s -> has_natural_order Key_Kind o ->
  Permutation s (List s) /\
  (forall x, Has s x = true ->
     length (filter (fun e => x == e) (List s)) = 1) /\
  ((o = FloatingPoint -> self_equal s = true) ->
     ascending (natural_less o) (List s) /\
     forall e, In e (List s) -> Has s e = true).
Proof.
  intros W K. pose proof (less_of_kind_natural Key_Kind o K) as L.
  split; [apply List_perm|]. split.
  - intros x M. now apply List_once.
  - intro F.
    assert (S : self_equal s = true).
    { apply self_equal_of_kind.
      - apply less_of_kind_Some. now exists (natural_less o).
      - intro B. apply F. exact (order_of_natural Key_Kind o K B). }
    split; [now apply List_ascending|].
    intros e I. apply Has_self_equal; [assumption|].
    exact (Permutation_in e (Permutation_sym (List_perm s)) I).
Qed.

(** No sorting routine lists the set of 1.0 and NaN in ascending
    order: neither arrangement of the two is ascending. *)
Lemma two_with_NaN_not_ascending (l : list float64) :
  Permutation [f_one; NaN] l ->
  ~ ascending (fun x y : float64 => SFltb x y) l.
Proof.
  intros P A. apply Permutation_length_2_inv in P as [->| ->];
    apply StronglySorted_inv in A as [_ F];
    apply Forall_inv in F; discriminate.
Qed.

End ListClaim.

Section StoreClaim.
Context {T : Type} `{Comparable T}.
Implicit Types (h : Store.Heap T) (a b r : Store.Ref).

(** C7.  [Union], [Intersection] and [Difference] return a reference to
    a map allocated by the call; the operands, as every map that
    existed, keep their contents, so their length and their members;
    and later insertions or deletions on the result do not reach the
    older maps, nor the other way round. *)
Theorem algebra_result_independent (op : Algebra) a b h :
  a < length h -> b < length h ->
  Store.independent_result op a b h (Store.run op a b h).
Proof.
  intros La Lb. rewrite run_on_contents by assumption.
  unfold Store.independent_result.
  assert (U : Store.unchanged h (h ++ [on_contents op (Store.deref h a)
                                         (Store.deref h b)]))
    by (intros r L; now apply deref_old).
  rewrite length_app. simpl length.
  split; [lia|]. split; [lia|]. split; [exact U|].
  unfold Store.Len, Store.Has, Store.bind, Store.get, Store.ret. simpl.
  rewrite (U a La), (U b Lb).
  split; [now split|]. split; [now split|].
  split; [now rewrite deref_new|].
  intros r L. split; intro keys.
  - rewrite Insert_run, Delete_run by (rewrite length_app; simpl; lia).
    simpl. split; apply deref_store_other; lia.
  - rewrite Insert_run, Delete_run by (rewrite length_app; simpl; lia).
    simpl. split; apply deref_store_other; lia.
Qed.

(** On the store, too, deleting a key that is not a member changes
    nothing. *)
Lemma Delete_absent_store r (x : T) h :
  r < length h -> Has (Store.deref h r) x = false ->
  Store.Delete r [x] h = (tt, h).
Proof.
  intros L M. rewrite Delete_run by assumption. simpl.
  now rewrite (mapdelete_absent _ _ M), store_deref.
Qed.

End StoreClaim.

(** * The claims on concrete sets *)

(** ** Instances of the theorems *)

Lemma Equal_iff_same_members_witness :
  wf set_123 /\ wf set_1245 /\
  ((Equal set_123 set_1245 = true ->
    forall x, Has set_123 x = Has set_1245 x) /\
   (self_equal set_123 = true -> self_equal set_1245 = true ->
      (Equal set_123 set_1245 = true <->
       forall x, Has set_123 x = Has set_1245 x)) /\
   (Len set_123 = Len set_1245 ->
    IsSuperset set_123 set_1245 = true ->
    IsSuperset set_1245 set_123 = true)).
Proof.
  split; [reflexivity|]. split; [reflexivity|].
  apply (Equal_iff_same_members set_123 set_1245); reflexivity.
Defined.

Lemma List_sorted_once_witness :
  wf set_zyxa /\ has_natural_order (@Key_Kind string _) StringOrder /\
  (Permutation set_zyxa (List set_zyxa) /\
   (forall x, Has set_zyxa x = true ->
      length (filter (fun e => x == e) (List set_zyxa)) = 1) /\
   ((StringOrder = FloatingPoint -> self_equal set_zyxa = true) ->
      ascending (natural_less StringOrder) (List set_zyxa) /\
      forall e, In e (List set_zyxa) -> Has set_zyxa e = true)).
Proof.
  split; [reflexivity|]. split; [now left|].
  apply (List_sorted_once set_zyxa StringOrder); [reflexivity|now left].
Defined.

Lemma Difference_Intersection_Len_witness :
  wf set_2_NaN_1 /\ wf set_NaN_1 /\
  (Len (Difference set_2_NaN_1 set_NaN_1)
   + Len (Intersection set_NaN_1 set_2_NaN_1))%Z = Len set_2_NaN_1.
Proof.
  split; [reflexivity|]. split; [reflexivity|].
  apply (Difference_Intersection_Len set_2_NaN_1 set_NaN_1); reflexivity.
Defined.

Lemma Union_laws_witness :
  wf set_123 /\ wf set_1245 /\ wf set_zyxa /\
  ((forall x, Has (Union set_123 set_1245) x
              = Has set_123 x || Has set_1245 x) /\
   (self_equal set_123 = true -> self_equal set_1245 = true ->
    self_equal set_zyxa = true ->
      Equal (Union set_123 set_1245) (Union set_1245 set_123) = true /\
      Equal (Union (Union set_123 set_1245) set_zyxa)
            (Union set_123 (Union set_1245 set_zyxa)) = true /\
      Equal (Union set_123 set_123) set_123 = true)).
Proof.
  split; [reflexivity|]. split; [reflexivity|]. split; [reflexivity|].
  apply (Union_laws set_123 set_1245 set_zyxa); reflexivity.
Defined.

Lemma Intersection_laws_witness :
  wf set_123 /\ wf set_1245 /\ wf set_zyxa /\
  ((forall x, Has (Intersection set_123 set_1245) x
              = Has set_123 x && Has set_1245 x) /\
   Equal (Intersection set_123 set_1245)
         (Intersection set_1245 set_123) = true /\
   Equal (Intersection (Intersection set_123 set_1245) set_zyxa)
         (Intersection set_123 (Intersection set_1245 set_zyxa)) = true /\
   (self_equal set_123 = true ->
      Equal (Intersection set_123 set_123) set_123 = true)).
Proof.
  split; [reflexivity|]. split; [reflexivity|]. split; [reflexivity|].
  apply (Intersection_laws set_123 set_1245 set_zyxa); reflexivity.
Defined.

Lemma IsSuperset_inclusion_witness :
  IsSuperset set_1245 (New []) = true /\
  (IsSuperset (New []) set_1245 = true <-> Len set_1245 = 0%Z) /\
  (IsSuperset set_1245 set_123 = true ->
   forall x, Has set_123 x = true -> Has set_1245 x = true) /\
  (self_equal set_123 = true ->
     (IsSuperset set_1245 set_123 = true <->
      forall x, Has set_123 x = true -> Has set_1245 x = true)).
Proof. exact (IsSuperset_inclusion set_1245 set_123). Defined.

Lemma algebra_result_independent_witness :
  0 < length [set_123; set_1245] /\ 1 < length [set_123; set_1245] /\
  Store.independent_result OpUnion 0 1 [set_123; set_1245]
    (Store.run OpUnion 0 1 [set_123; set_1245]).
Proof.
  split; [simpl; lia|]. split; [simpl; lia|].
  apply (algebra_result_independent OpUnion 0 1 [set_123; set_1245]);
    simpl; lia.
Defined.

Lemma Delete_absent_Insert_present_witness :
  (Has set_123 "4"%string = false ->
     Delete set_123 ["4"%string] = set_123 /\
     Len (Delete set_123 ["4"%string]) = Len set_123 /\
     forall y, Has (Delete set_123 ["4"%string]) y = Has set_123 y) /\
  (Has set_123 "4"%string = true ->
     Len (Insert set_123 ["4"%string]) = Len set_123 /\
     forall y, Has (Insert set_123 ["4"%string]) y = Has set_123 y).
Proof. exact (Delete_absent_Insert_present set_123 "4"%string). Defined.

Lemma Intersection_branch_irrelevant_witness :
  wf set_123 /\ wf set_1245 /\
  (Equal (walk_probe set_123 set_1245) (walk_probe set_1245 set_123) = true /\
   (forall x, Has (walk_probe set_123 set_1245) x
              = Has (walk_probe set_1245 set_123) x) /\
   Len (walk_probe set_123 set_1245) = Len (walk_probe set_1245 set_123) /\
   Equal (Intersection set_123 set_1245)
         (Intersection_naive set_123 set_1245) = true /\
   (forall x, Has (Intersection set_123 set_1245) x
              = Has set_123 x && Has set_1245 x)).
Proof.
  split; [reflexivity|]. split; [reflexivity|].
  apply (Intersection_branch_irrelevant set_123 set_1245); reflexivity.
Defined.

Lemma Equal_symmetric_witness :
  wf set_1_NaN /\ wf set_NaN_1 /\
  Equal set_1_NaN set_NaN_1 = Equal set_NaN_1 set_1_NaN.
Proof.
  split; [reflexivity|]. split; [reflexivity|].
  apply (Equal_symmetric set_1_NaN set_NaN_1); reflexivity.
Defined.

(** ** Sets with a NaN key *)

(** C1, counterexample.  The set holding one NaN is not [Equal] to
    itself, so [Equal] is not "same members". *)
Lemma Equal_NaN_counterexample :
  wf set_NaN /\ Equal set_NaN set_NaN = false /\
  ~ (forall a b : Set_ float64, wf a -> wf b ->
       (Equal a b = true <-> forall x, Has a x = Has b x)).
Proof.
  split; [reflexivity|]. split; [reflexivity|].
  intro C.
  assert (E : Equal set_NaN set_NaN = true)
    by (apply (C set_NaN set_NaN); reflexivity).
  discriminate E.
Qed.

(** C2, counterexample.  [float64] is of a floating-point kind; the set
    of 1.0 and NaN, in either order of iteration, is listed as iterated,
    and that is not ascending for the order of the floats. *)
Lemma List_NaN_counterexample :
  wf set_1_NaN /\ wf set_NaN_1 /\
  has_natural_order (@Key_Kind float64 _) FloatingPoint /\
  List set_1_NaN = [f_one; NaN] /\ List set_NaN_1 = [NaN; f_one] /\
  ~ ascending (natural_less FloatingPoint) (List set_1_NaN) /\
  ~ ascending (natural_less FloatingPoint) (List set_NaN_1).
Proof.
  split; [reflexivity|]. split; [reflexivity|].
  split; [right; now left|]. split; [reflexivity|]. split; [reflexivity|].
  split; intro A; apply StronglySorted_inv in A as [_ F];
    apply Forall_inv in F; discriminate F.
Qed.

(** C4, counterexample.  The union of the NaN set with itself holds two
    entries; and its unions with the empty set, one way and the other,
    are not [Equal]. *)
Lemma Union_NaN_counterexample :
  wf set_NaN /\ Union set_NaN set_NaN = [NaN; NaN] /\
  Equal (Union set_NaN set_NaN) set_NaN = false /\
  Equal (Union set_NaN (New [])) (Union (New []) set_NaN) = false.
Proof. repeat split. Qed.

(** C5, counterexample.  The intersection of the NaN set with itself is
    empty. *)
Lemma Intersection_NaN_counterexample :
  wf set_NaN /\ Intersection set_NaN set_NaN = [] /\
  Equal (Intersection set_NaN set_NaN) set_NaN = false.
Proof. repeat split. Qed.

(** C6, counterexample.  The NaN set is not a superset of itself, and
    the empty set is not a superset of it although it has no member. *)
Lemma IsSuperset_NaN_counterexample :
  wf set_NaN /\ IsSuperset set_NaN set_NaN = false /\
  (forall x, Has set_NaN x = false) /\
  IsSuperset (New []) set_NaN = false /\
  ~ (forall a b : Set_ float64, wf a -> wf b ->
       (IsSuperset a b = true <->
        forall x, Has b x = true -> Has a x = true)).
Proof.
  split; [reflexivity|]. split; [reflexivity|].
  assert (N : forall x, Has set_NaN x = false) by (intros []; reflexivity).
  split; [exact N|]. split; [reflexivity|].
  intro C.
  assert (S : IsSuperset set_NaN set_NaN = true)
    by (apply (C set_NaN set_NaN); [reflexivity..|auto]).
  discriminate S.
Qed.

(** ** The cases of set_test.go, run on the model *)

Example testStringSet :
  let s := New (T := string) [] in
  let s2 := New (T := string) [] in
  Len s = 0%Z /\
  let s := Insert s ["a"%string; "b"%string] in
  Len s = 2%Z /\
  let s := Insert s ["c"%string] in
  Has s "d"%string = false /\ Has s "a"%string = true /\
  let s := Delete s ["a"%string] in
  Has s "a"%string = false /\
  let s := Insert s ["a"%string] in
  HasAll s ["a"%string; "b"%string; "d"%string] = false /\
  HasAll s ["a"%string; "b"%string] = true /\
  let s2 := Insert s2 ["a"%string; "b"%string; "d"%string] in
  IsSuperset s s2 = false /\
  let s2 := Delete s2 ["d"%string] in
  IsSuperset s s2 = true.
Proof. repeat split. Qed.

Example testStringSetDeleteMultiples :
  let s := Insert (New (T := string) [])
             ["a"%string; "b"%string; "c"%string] in
  Len s = 3%Z /\
  let s := Delete s ["a"%string; "c"%string] in
  Len s = 1%Z /\ Has s "a"%string = false /\ Has s "c"%string = false /\
  Has s "b"%string = true.
Proof. repeat split. Qed.

Example testStringSetList :
  List set_zyxa = ["a"%string; "x"%string; "y"%string; "z"%string].
Proof. reflexivity. Qed.

Example testStringSetDifference :
  let c := Difference set_123 set_1245 in
  let d := Difference set_1245 set_123 in
  Len c = 1%Z /\ Has c "3"%string = true /\
  Len d = 2%Z /\ Has d "4"%string = true /\ Has d "5"%string = true.
Proof. repeat split. Qed.

Example testStringSetHasAny :
  HasAny set_123 ["1"%string; "4"%string] = true /\
  HasAny set_123 ["0"%string; "4"%string] = false.
Proof. split; reflexivity. Qed.

(** Listings of integer sets, signed and unsigned. *)
Example List_int64_ascending :
  List (New [3%Z; 1%Z; 2%Z; (-5)%Z] : Set_ int64)
  = [(-5)%Z; 1%Z; 2%Z; 3%Z].
Proof. reflexivity. Qed.

Example List_uint64_ascending :
  List (New [3%N; 1%N; 2%N; 0%N] : Set_ uint64) = [0%N; 1%N; 2%N; 3%N].
Proof. reflexivity. Qed.

(** Key update: inserting [-0] where [+0] is stored keeps one entry and
    stores the new key. *)
Example zero_key_update :
  Insert (New [pos_zero]) [neg_zero] = [neg_zero] /\
  Has (New [pos_zero]) neg_zero = true.
Proof. split; reflexivity. Qed.

(** * Further properties of the methods *)

(** ** Which keys a map holds after assignments and deletions *)

Section EntryFacts.
Context {T : Type} `{Comparable T} `{!ComparableLaws T}.
Implicit Types (s a b : Set_ T) (k x y e : T) (keys : list T).

Lemma In_mapassign s k e : In e (mapassign s k) -> In e s \/ e = k.
Proof.
  induction s as [|e' s IH]; simpl.
  - intros [<-|[]]. now right.
  - destruct (e' == k); simpl.
    + intros [<-|I]; auto.
    + intros [<-|I]; auto. destruct (IH I); auto.
Qed.

Lemma In_Insert s keys e : In e (Insert s keys) -> In e s \/ In e keys.
Proof.
  revert s. induction keys as [|k keys IH]; intros s; [now left|].
  rewrite Insert_cons. intro I. destruct (IH _ I) as [J|J].
  - destruct (In_mapassign s k e J) as [J'| ->]; [now left|right; now left].
  - right. now right.
Qed.

Lemma In_New keys e : In e (New keys) -> In e keys.
Proof.
  rewrite New_Insert. intro I. now destruct (In_Insert [] keys e I).
Qed.

Lemma In_mapassign_new s k : In k (mapassign s k).
Proof.
  induction s as [|e s IH]; simpl; [now left|].
  destruct (e == k); [now left|now right].
Qed.

(** An entry that differs from itself is never overwritten. *)
Lemma In_mapassign_keep s k e :
  (e == e) = false -> In e s -> In e (mapassign s k).
Proof.
  intro N. induction s as [|e' s IH]; simpl; [intros []|].
  destruct (e' == k) eqn:E.
  - intros [->|I]; [|now right].
    rewrite (key_eqb_self_l _ _ E) in N. discriminate.
  - intros [->|I]; [now left|right; now apply IH].
Qed.

Lemma In_Insert_keep s keys e :
  (e == e) = false -> In e s \/ In e keys -> In e (Insert s keys).
Proof.
  intro N. revert s. induction keys as [|k keys IH]; intros s.
  - intros [I|[]]. exact I.
  - rewrite Insert_cons. intros [I|[->|I]]; apply IH; auto.
    + left. now apply In_mapassign_keep.
    + left. apply In_mapassign_new.
Qed.

Lemma Insert_length s keys :
  length s <= length (Insert s keys) <= length s + length keys.
Proof.
  revert s. induction keys as [|k keys IH]; intro s; [simpl; lia|].
  rewrite Insert_cons. specialize (IH (mapassign s k)).
  rewrite mapassign_length in IH. simpl length.
  destruct (Has s k); lia.
Qed.

(** In a map, deleting a key filters out the one entry that matches. *)
Lemma mapdelete_filter s k :
  wf s -> mapdelete s k = filter (fun e => negb (e == k)) s.
Proof.
  induction s as [|e s IH]; simpl; [reflexivity|].
  rewrite wf_cons. intros [F W]. destruct (e == k) eqn:E; simpl.
  - symmetry. apply filter_all, forallb_forall. intros e' I.
    apply negb_true_iff.
    rewrite <- (proj1 (Has_false_iff s e) F e' I).
    rewrite !(key_eqb_sym e'). symmetry. now apply key_eqb_compat.
  - now rewrite IH.
Qed.

Lemma Delete_filter s keys :
  wf s -> Delete s keys = filter (fun e => negb (Has keys e)) s.
Proof.
  revert s. induction keys as [|k keys IH]; intros s W.
  - simpl. symmetry. apply filter_all. now apply forallb_forall.
  - change (Delete s (k :: keys)) with (Delete (mapdelete s k) keys).
    rewrite (IH _ (wf_mapdelete s k W)), (mapdelete_filter s k W).
    rewrite filter_filter. apply filter_ext. intro e.
    now rewrite Has_cons, negb_orb, (key_eqb_sym k e).
Qed.

End EntryFacts.

(** ** Construction, insertion and the variadic queries *)

Section VariadicFacts.
Context {T : Type} `{Comparable T} `{!ComparableLaws T}.
Implicit Types (s a b : Set_ T) (k x y e : T) (keys items : list T).

(** X1.  [New] builds a map whose members are the arguments, duplicates
    counted once: it holds no more entries than arguments, and exactly
    the arguments, in order, when no two of them are [==]. *)
Theorem New_deduplicates keys :
  wf (New keys) /\
  (forall x, Has (New keys) x = Has keys x) /\
  (Len (New keys) <= Z.of_nat (length keys))%Z /\
  (wf keys -> New keys = keys).
Proof.
  split; [apply wf_New|]. split; [apply Has_New|]. split.
  - unfold Len. rewrite New_Insert.
    pose proof (Insert_length [] keys). simpl in *. lia.
  - apply New_wf.
Qed.

(** X2.  [HasAll] of some keys is [IsSuperset] of the set [New] makes of
    them, NaN keys included. *)
Theorem HasAll_IsSuperset_New s keys :
  HasAll s keys = IsSuperset s (New keys).
Proof.
  apply eq_true_iff_eq. unfold HasAll. rewrite forallb_forall, IsSuperset_iff.
  split; intros F k I.
  - apply F. now apply In_New.
  - destruct (k == k) eqn:E.
    + assert (M : Has (New keys) k = true)
        by (rewrite Has_New; now apply Has_In).
      apply Has_true_iff in M as (e & J & E').
      rewrite <- (Has_compat s e k E'). now apply F.
    + apply F. rewrite New_Insert. apply In_Insert_keep; auto.
Qed.

Lemma Insert_value_Made (m : Set_ T) keys :
  Insert_value (Made m) keys = Some (Made (Insert m keys)).
Proof.
  revert m. induction keys as [|k keys IH]; intro m; [reflexivity|].
  simpl. apply IH.
Qed.

Lemma Delete_value_Made (m : Set_ T) keys :
  Delete_value (Made m) keys = Made (Delete m keys).
Proof.
  revert m. induction keys as [|k keys IH]; intro m; [reflexivity|].
  simpl. apply IH.
Qed.

(** X3.  [Insert] on the nil map panics as soon as there is a key to
    insert.  On a map that exists it succeeds, and afterwards a lookup
    finds what it found before and what was inserted; the inserted keys
    are all found ([HasAll]) exactly when none of them is a NaN; the
    length grows by at most the number of keys and never shrinks; the
    map invariant is kept. *)
Theorem Insert_lookup (m : Set_ T) keys :
  Insert_value Nil keys
  = match keys with [] => Some Nil | _ :: _ => None end /\
  Insert_value (Made m) keys = Some (Made (Insert m keys)) /\
  (forall x, Has (Insert m keys) x = Has m x || Has keys x) /\
  HasAll (Insert m keys) keys = self_equal keys /\
  (Len m <= Len (Insert m keys) <= Len m + Z.of_nat (length keys))%Z /\
  (wf m -> wf (Insert m keys)).
Proof.
  split; [now destruct keys|]. split; [apply Insert_value_Made|].
  split; [intro x; apply Has_Insert|]. split; [|split].
  - apply eq_true_iff_eq. unfold HasAll.
    rewrite forallb_forall, self_equal_iff.
    split; intros F k I.
    + exact (Has_self _ _ (F k I)).
    + rewrite Has_Insert, (Has_In keys k I (F k I)). apply orb_true_r.
  - unfold Len. pose proof (Insert_length m keys). lia.
  - apply wf_Insert.
Qed.

End VariadicFacts.

(** ** Deletion *)

Section DeleteFacts.
Context {T : Type} `{Comparable T} `{!ComparableLaws T}.
Implicit Types (s a b : Set_ T) (k x y e : T) (keys items : list T).

Lemma mapdelete_app_absent s (l : list T) k :
  Has s k = false -> mapdelete (s ++ l) k = s ++ mapdelete l k.
Proof.
  induction s as [|e s IH]; simpl; [reflexivity|].
  rewrite Has_cons, orb_false_iff. intros [-> F]. now rewrite IH.
Qed.

(** An entry that differs from itself is never deleted. *)
Lemma In_mapdelete_keep s k e :
  (e == e) = false -> In e s -> In e (mapdelete s k).
Proof.
  intro N. induction s as [|e' s IH]; simpl; [intros []|].
  destruct (e' == k) eqn:E.
  - intros [->|I]; [|exact I].
    rewrite (key_eqb_self_l _ _ E) in N. discriminate.
  - intros [->|I]; [now left|right; now apply IH].
Qed.

Lemma In_Delete_keep s keys e :
  (e == e) = false -> In e s -> In e (Delete s keys).
Proof.
  intro N. revert s. induction keys as [|k keys IH]; intros s I; [exact I|].
  apply (IH (mapdelete s k)). now apply In_mapdelete_keep.
Qed.

Lemma Has_Delete s keys x :
  wf s -> Has (Delete s keys) x = Has s x && negb (Has keys x).
Proof.
  intro W. rewrite (Delete_filter s keys W).
  apply (Has_filter (fun e => negb (Has keys e))).
  intros y z E. now rewrite (Has_compat keys y z E).
Qed.

(** X4.  [Delete] leaves in the receiver what [Difference] with the set
    of the deleted keys returns: the members that are none of the keys.
    None of the keys is found afterwards, the length does not grow, and
    the map invariant is kept. *)
Theorem Delete_is_Difference s keys :
  wf s ->
  Delete s keys = Difference s (New keys) /\
  (forall x, Has (Delete s keys) x = Has s x && negb (Has keys x)) /\
  HasAny (Delete s keys) keys = false /\
  (Len (Delete s keys) <= Len s)%Z /\
  wf (Delete s keys).
Proof.
  intro W. split; [|split; [|split; [|split]]].
  - rewrite (Delete_filter s keys W), (Difference_filter s (New keys) W).
    apply filter_ext. intro e. now rewrite Has_New.
  - intro x. now apply Has_Delete.
  - apply not_true_iff_false. unfold HasAny. rewrite existsb_exists.
    intros (k & I & M). rewrite (Has_Delete s keys k W) in M.
    apply andb_true_iff in M as [M N].
    rewrite (Has_In keys k I (Has_self s k M)) in N. discriminate.
  - unfold Len. rewrite (Delete_filter s keys W).
    pose proof (filter_length_le (fun e => negb (Has keys e)) s). lia.
  - now apply wf_Delete.
Qed.

(** X5.  On a map that exists, inserting a key that is not a member
    and deleting it again gives back the very same contents, unless the
    key is a NaN: then the inserted entry stays.  On the nil map the
    insertion panics. *)
Theorem Insert_Delete_round_trip (m : Set_ T) k :
  Has m k = false ->
  Insert_value Nil [k] = None /\
  option_map (fun v => Delete_value v [k]) (Insert_value (Made m) [k])
  = Some (Made (if k == k then m else m ++ [k])).
Proof.
  intro F. split; [reflexivity|].
  rewrite Insert_value_Made. unfold option_map.
  rewrite Delete_value_Made. do 2 f_equal.
  simpl. rewrite (mapassign_absent m k F).
  rewrite (mapdelete_app_absent m [k] k F). simpl.
  destruct (k == k); [apply app_nil_r|reflexivity].
Qed.

(** X6.  On a map that exists, a key that differs from itself is added
    as a new entry by every [Insert], is not found afterwards, and no
    [Delete] removes it.  On the nil map the insertion panics. *)
Theorem NaN_key_stays (m : Set_ T) k keys :
  (k == k) = false ->
  Insert_value Nil [k] = None /\
  Insert_value (Made m) [k] = Some (Made (Insert m [k])) /\
  Len (Insert m [k]) = (Len m + 1)%Z /\
  Has (Insert m [k]) k = false /\
  In k (contents (Delete_value (Made (Insert m [k])) keys)).
Proof.
  intro N.
  assert (F : Has m k = false).
  { destruct (Has m k) eqn:M; [|reflexivity].
    rewrite (Has_self m k M) in N. discriminate. }
  split; [reflexivity|]. split; [apply Insert_value_Made|].
  split; [|split].
  - unfold Len. simpl. rewrite mapassign_length, F. lia.
  - simpl. now rewrite Has_mapassign, F, N.
  - rewrite Delete_value_Made. simpl contents.
    apply In_Delete_keep; [assumption|]. simpl. apply In_mapassign_new.
Qed.

End DeleteFacts.

(** ** How the operations of the algebra compose *)

Section AlgebraFacts.
Context {T : Type} `{Comparable T} `{!ComparableLaws T}.
Implicit Types (s a b c : Set_ T) (k x y e : T) (keys items : list T).

Lemma Intersection_length a b :
  wf a -> wf b ->
  length (Intersection a b) = length (filter (fun key => Has b key) a).
Proof.
  intros Wa Wb. unfold Intersection. destruct (Len a <? Len b)%Z.
  - now rewrite walk_probe_filter.
  - rewrite walk_probe_filter by assumption. now apply matched_count.
Qed.

Lemma self_equal_filter (p : T -> bool) s :
  self_equal s = true -> self_equal (filter p s) = true.
Proof.
  rewrite !self_equal_iff. intros F e I. apply filter_In in I as [I _]. auto.
Qed.

Lemma self_equal_New keys : self_equal (New keys) = self_equal keys.
Proof. now rewrite New_Insert, self_equal_Insert. Qed.

(** An [Intersection] with no entry has no member, and conversely. *)
Lemma Intersection_nil_iff a b :
  wf a -> wf b ->
  (Intersection a b = [] <-> forall x, Has a x && Has b x = false).
Proof.
  intros Wa Wb. split.
  - intros E x. rewrite <- (Has_Intersection a b x Wa Wb), E. reflexivity.
  - intro F. destruct (Intersection a b) as [|e l] eqn:E; [reflexivity|].
    assert (S : self_equal (Intersection a b) = true)
      by now apply self_equal_Intersection.
    assert (M : Has (Intersection a b) e = true)
      by (apply Has_self_equal; [assumption|rewrite E; now left]).
    rewrite (Has_Intersection a b e Wa Wb), F in M. discriminate.
Qed.

(** X7.  [HasAny] of some keys tells whether the [Intersection] with the
    set [New] makes of them is non-empty. *)
Theorem HasAny_Intersection s items :
  wf s ->
  HasAny s items = negb (Len (Intersection s (New items)) =? 0)%Z.
Proof.
  intro W. pose proof (wf_New items) as Wn.
  destruct (HasAny s items) eqn:A; symmetry.
  - apply negb_true_iff, Z.eqb_neq. unfold Len. intro L.
    assert (E : Intersection s (New items) = [])
      by (destruct (Intersection s (New items)); [reflexivity|discriminate]).
    unfold HasAny in A. apply existsb_exists in A as (k & I & M).
    pose proof (proj1 (Intersection_nil_iff s (New items) W Wn) E k) as F.
    rewrite M, Has_New, (Has_In items k I (Has_self s k M)) in F.
    discriminate.
  - apply negb_false_iff, Z.eqb_eq.
    assert (E : Intersection s (New items) = []); [|now rewrite E].
    apply Intersection_nil_iff; [assumption..|]. intro x.
    destruct (Has s x) eqn:M; [simpl|reflexivity].
    destruct (Has (New items) x) eqn:N; [|reflexivity].
    rewrite Has_New in N. apply Has_true_iff in N as (k & I & E).
    assert (A' : HasAny s items = true).
    { unfold HasAny. apply existsb_exists. exists k. split; [assumption|].
      now rewrite (Has_compat s k x E). }
    congruence.
Qed.

(** X8.  [Difference] holds the members of the receiver that the
    argument lacks, shares no member with the argument, and is no
    longer than the receiver.  The difference of a set with itself is
    empty exactly when the set holds no NaN key. *)
Theorem Difference_members a b :
  wf a -> wf b ->
  (forall x, Has (Difference a b) x = Has a x && negb (Has b x)) /\
  Intersection (Difference a b) b = [] /\
  (Len (Difference a b) <= Len a)%Z /\
  (Difference a a = [] <-> self_equal a = true).
Proof.
  intros Wa Wb. split; [|split; [|split]].
  - intro x. now apply Has_Difference.
  - apply Intersection_nil_iff; [now apply wf_Difference|assumption|].
    intro x. rewrite (Has_Difference a b x Wa).
    now destruct (Has a x), (Has b x).
  - unfold Len. rewrite (Difference_filter a b Wa).
    pose proof (filter_length_le (fun key => negb (Has b key)) a). lia.
  - rewrite (Difference_filter a a Wa). split.
    + intro E. apply self_equal_iff. intros e I.
      destruct (e == e) eqn:N; [reflexivity|].
      assert (J : In e (filter (fun key => negb (Has a key)) a)).
      { apply filter_In. split; [assumption|]. apply negb_true_iff.
        destruct (Has a e) eqn:M; [|reflexivity].
        rewrite (Has_self a e M) in N. discriminate. }
      rewrite E in J. destruct J.
    + intro S. apply filter_none. intros e I.
      now rewrite (Has_self_equal a e S I).
Qed.

(** X9.  The entries of a union and of an intersection add up to the
    entries of the operands. *)
Theorem Union_Intersection_Len a b :
  wf a -> wf b ->
  (Len (Union a b) + Len (Intersection a b))%Z = (Len a + Len b)%Z.
Proof.
  intros Wa Wb. unfold Len.
  rewrite (Permutation_length (Union_perm_filter a b Wa Wb)).
  rewrite length_app, (Intersection_length a b Wa Wb).
  pose proof (filter_length_split (fun key => Has b key) a). lia.
Qed.

(** X10.  With the empty set as an operand the operations return the
    other operand unchanged ([Union], [Difference] from it) or the empty
    set ([Intersection], [Difference] of it). *)
Theorem empty_operand a :
  wf a ->
  Difference a (New []) = a /\ Difference (New []) a = [] /\
  Union a (New []) = a /\ Union (New []) a = a /\
  Intersection a (New []) = [] /\ Intersection (New []) a = [].
Proof.
  intro W. repeat split.
  - rewrite (Difference_filter a (New []) W).
    apply filter_all. now apply forallb_forall.
  - now rewrite (Union_Insert_wf a (New []) W).
  - rewrite Union_Insert. apply (Insert_fresh a [] W). reflexivity.
  - unfold Intersection. assert (L : (Len a <? Len (New []))%Z = false)
      by (apply Z.ltb_ge; unfold Len; simpl; lia).
    now rewrite L.
  - unfold Intersection. destruct (Len (New []) <? Len a)%Z; [reflexivity|].
    rewrite (walk_probe_filter a (New []) W). now apply filter_none.
Qed.

(** X11.  The difference and the intersection with one set make up the
    receiver again: their union is [Equal] to it, save when it holds a
    NaN key. *)
Theorem Difference_Intersection_recompose a b :
  wf a -> wf b ->
  Equal (Union (Difference a b) (Intersection a b)) a = self_equal a.
Proof.
  intros Wa Wb. destruct (self_equal a) eqn:S.
  - apply members_Equal; auto using wf_Union.
    + rewrite self_equal_Union, (self_equal_Intersection a b Wa Wb).
      rewrite (Difference_filter a b Wa).
      now rewrite (self_equal_filter _ a S).
    + intro x. rewrite Has_Union, (Has_Difference a b x Wa).
      rewrite (Has_Intersection a b x Wa Wb).
      now destruct (Has a x), (Has b x).
  - destruct (Equal (Union (Difference a b) (Intersection a b)) a) eqn:E;
      [|reflexivity].
    destruct (Equal_self_equal _ a (wf_Union _ _) Wa E) as [_ S'].
    congruence.
Qed.

(** X12.  [Equal] is transitive, and a set is [Equal] to itself exactly
    when it holds no NaN key. *)
Theorem Equal_equivalence a b c :
  wf a -> wf b -> wf c ->
  Equal a a = self_equal a /\
  (Equal a b = true -> Equal b c = true -> Equal a c = true).
Proof.
  intros Wa Wb Wc. split.
  - destruct (self_equal a) eqn:S.
    + now apply members_Equal.
    + destruct (Equal a a) eqn:E; [|reflexivity].
      destruct (Equal_self_equal a a Wa Wa E). congruence.
  - intros E F.
    destruct (Equal_self_equal a b Wa Wb E) as [Sa _].
    destruct (Equal_self_equal b c Wb Wc F) as [_ Sc].
    apply members_Equal; try assumption.
    intro x. rewrite (Equal_Has a b x Wa Wb E). now apply Equal_Has.
Qed.

(** X13.  [IsSuperset] is transitive; a superset holds no fewer
    entries; and two sets are supersets of each other exactly when they
    are [Equal]. *)
Theorem IsSuperset_order a b c :
  wf a -> wf b ->
  (IsSuperset a b = true -> IsSuperset b c = true ->
   IsSuperset a c = true) /\
  (IsSuperset a b = true -> (Len b <= Len a)%Z) /\
  IsSuperset a b && IsSuperset b a = Equal a b.
Proof.
  intros Wa Wb. split; [|split].
  - intros S S'. apply IsSuperset_iff. intros e I.
    apply (IsSuperset_Has a b e S).
    exact (proj1 (IsSuperset_iff b c) S' e I).
  - intro S. unfold Len. pose proof (IsSuperset_length a b Wa Wb S). lia.
  - apply eq_true_iff_eq. rewrite andb_true_iff, Equal_true_iff. split.
    + intros [S S']. split; [|assumption].
      pose proof (IsSuperset_length a b Wa Wb S).
      pose proof (IsSuperset_length b a Wb Wa S'). lia.
    + intros [L S]. split; [assumption|].
      now apply IsSuperset_swap.
Qed.

(** X14.  Two sets built by [New] from keys that are no NaN are [Equal]
    exactly when the same keys occur in both argument lists, whatever
    their order and multiplicity. *)
Theorem New_Equal_members keys keys' :
  self_equal keys = true -> self_equal keys' = true ->
  (Equal (New keys) (New keys') = true <->
   forall x, Has keys x = Has keys' x).
Proof.
  intros S S'. split.
  - intros E x. rewrite <- (Has_New keys x), <- (Has_New keys' x).
    apply Equal_Has; auto using wf_New.
  - intro M. apply members_Equal; auto using wf_New.
    + now rewrite self_equal_New.
    + now rewrite self_equal_New.
    + intro x. now rewrite !Has_New.
Qed.

End AlgebraFacts.

(** ** The listing does not depend on the iteration nor on the sort *)

Section ListOrderFacts.
Context {T : Type} `{Comparable T} `{!ComparableLaws T}.
Implicit Types (s a b : Set_ T) (x y e : T) (less : T -> T -> bool).
Implicit Types (l u : list T).

(** Two strictly ascending arrangements of the same elements are the
    same list. *)
Lemma ascending_unique less u l l' :
  strict_weak_on less u -> incl l u -> incl l' u ->
  ascending less l -> ascending less l' -> Permutation l l' -> l = l'.
Proof.
  intros (Irr & Tr & _). unfold ascending. revert l'.
  induction l as [|x l IH]; intros l' I I' A A' P.
  - now apply Permutation_nil in P.
  - destruct l' as [|y l'];
      [apply Permutation_sym, Permutation_nil in P; discriminate|].
    apply StronglySorted_inv in A as [A F].
    apply StronglySorted_inv in A' as [A' F'].
    rewrite Forall_forall in F, F'.
    assert (Ix : In x u) by (apply I; now left).
    assert (Iy : In y u) by (apply I'; now left).
    assert (E : x = y).
    { pose proof (Permutation_in x P (or_introl eq_refl)) as [E|J];
        [now symmetry|].
      pose proof (Permutation_in y (Permutation_sym P) (or_introl eq_refl))
        as [E|J']; [assumption|].
      pose proof (Tr x y x Ix Iy Ix (F y J') (F' x J)) as C.
      rewrite (Irr x Ix) in C. discriminate. }
    subst y. f_equal. apply IH; try assumption.
    + intros z J. apply I. now right.
    + intros z J. apply I'. now right.
    + exact (Permutation_cons_inv P).
Qed.

(** X15.  For a key type of an ordered kind and a set without a NaN key,
    [List] returns one and the same sequence whatever order the
    iteration over the map takes and whatever routine, within its
    contract, [sort.Slice] runs. *)
Theorem List_deterministic (S1 S2 : SortSlice)
    (L1 : @SortSliceLaws S1) (L2 : @SortSliceLaws S2) a b less :
  wf a -> Permutation a b ->
  less_of_kind Key_Kind = Some less ->
  (order_of Key_Kind = ByFloat -> self_equal a = true) ->
  @List T _ S1 a = @List T _ S2 b.
Proof.
  intros W P L F.
  assert (Sa : self_equal a = true).
  { apply self_equal_of_kind; [|assumption].
    apply less_of_kind_Some. now exists less. }
  pose proof (wf_perm a b P W) as Wb.
  pose proof (less_of_kind_total less a L Sa) as [SW _].
  pose proof (@List_perm T _ S1 L1 a) as P1.
  pose proof (@List_perm T _ S2 L2 b) as P2.
  apply (ascending_unique less a); try assumption.
  - intros z I. exact (Permutation_in z (Permutation_sym P1) I).
  - intros z I. apply (Permutation_in z (Permutation_sym P)).
    exact (Permutation_in z (Permutation_sym P2) I).
  - exact (@List_ascending T _ _ S1 L1 less a W Sa L).
  - apply (@List_ascending T _ _ S2 L2 less b Wb); [|exact L].
    rewrite <- (self_equal_perm a b P). exact Sa.
  - apply (Permutation_trans (Permutation_sym P1)).
    exact (Permutation_trans P P2).
Qed.

(** X16.  For a key type of any other kind [List] returns the keys in
    the order of the iteration; for every kind it returns as many
    elements as the map has entries, and the same ones. *)
Theorem List_every_kind (S1 : SortSlice) (L1 : @SortSliceLaws S1) s :
  (order_of Key_Kind = Unordered -> @List T _ S1 s = s) /\
  length (@List T _ S1 s) = length s /\
  (forall e, In e (@List T _ S1 s) <-> In e s).
Proof.
  pose proof (@List_perm T _ S1 L1 s) as P. split; [|split].
  - intro K. rewrite List_eq. unfold less_of_kind. now rewrite K.
  - symmetry. exact (Permutation_length P).
  - intro e. split; intro I.
    + exact (Permutation_in e (Permutation_sym P) I).
    + exact (Permutation_in e P I).
Qed.

End ListOrderFacts.

(** ** Mutation in place and allocation, on the store *)

Section StoreFrame.
Context {T : Type} `{Comparable T}.
Implicit Types (h : Store.Heap T) (r : Store.Ref) (keys : list T).

(** X17.  [Insert] and [Delete] change the map of the receiver in place,
    to what the value semantics computes, and touch no other map of the
    store, nor its size. *)
Theorem Insert_Delete_in_place r keys h :
  r < length h ->
  (length (snd (Store.Insert r keys h)) = length h /\
   Store.deref (snd (Store.Insert r keys h)) r
   = Insert (Store.deref h r) keys /\
   forall r', r' <> r ->
     Store.deref (snd (Store.Insert r keys h)) r' = Store.deref h r') /\
  (length (snd (Store.Delete r keys h)) = length h /\
   Store.deref (snd (Store.Delete r keys h)) r
   = Delete (Store.deref h r) keys /\
   forall r', r' <> r ->
     Store.deref (snd (Store.Delete r keys h)) r' = Store.deref h r').
Proof.
  intro L. rewrite Insert_run, Delete_run by assumption. simpl.
  rewrite !store_length, !deref_store_same by assumption.
  repeat split; intros r' N; apply deref_store_other; congruence.
Qed.

(** X18.  [New] allocates: it returns a reference the store did not
    hold, to a map with the contents the value semantics computes, and
    leaves every older map as it was. *)
Theorem New_allocates keys h :
  fst (Store.New keys h) = length h /\
  length (snd (Store.New keys h)) = S (length h) /\
  Store.unchanged h (snd (Store.New keys h)) /\
  Store.deref (snd (Store.New keys h)) (fst (Store.New keys h)) = New keys.
Proof.
  rewrite New_run. simpl. repeat split.
  - rewrite length_app. simpl. lia.
  - intros r L. now apply deref_old.
  - apply deref_new.
Qed.

End StoreFrame.

(** ** Instances of the further properties *)

Lemma New_deduplicates_witness :
  wf (New keys_221) /\
  (forall x, Has (New keys_221) x = Has keys_221 x) /\
  (Len (New keys_221) <= Z.of_nat (length keys_221))%Z /\
  (wf keys_221 -> New keys_221 = keys_221).
Proof. exact (New_deduplicates keys_221). Defined.

Lemma HasAll_IsSuperset_New_witness :
  HasAll set_123 keys_221 = IsSuperset set_123 (New keys_221).
Proof. exact (HasAll_IsSuperset_New set_123 keys_221). Defined.

Lemma Insert_lookup_witness :
  Insert_value Nil keys_NaN_2
  = match keys_NaN_2 with [] => Some Nil | _ :: _ => None end /\
  Insert_value (Made set_1_NaN) keys_NaN_2
  = Some (Made (Insert set_1_NaN keys_NaN_2)) /\
  (forall x, Has (Insert set_1_NaN keys_NaN_2) x
             = Has set_1_NaN x || Has keys_NaN_2 x) /\
  HasAll (Insert set_1_NaN keys_NaN_2) keys_NaN_2 = self_equal keys_NaN_2 /\
  (Len set_1_NaN <= Len (Insert set_1_NaN keys_NaN_2)
   <= Len set_1_NaN + Z.of_nat (length keys_NaN_2))%Z /\
  (wf set_1_NaN -> wf (Insert set_1_NaN keys_NaN_2)).
Proof. exact (Insert_lookup set_1_NaN keys_NaN_2). Defined.

Lemma Delete_is_Difference_witness :
  wf set_1245 /\
  (Delete set_1245 keys_221 = Difference set_1245 (New keys_221) /\
   (forall x, Has (Delete set_1245 keys_221) x
              = Has set_1245 x && negb (Has keys_221 x)) /\
   HasAny (Delete set_1245 keys_221) keys_221 = false /\
   (Len (Delete set_1245 keys_221) <= Len set_1245)%Z /\
   wf (Delete set_1245 keys_221)).
Proof.
  split; [reflexivity|].
  apply (Delete_is_Difference set_1245 keys_221); reflexivity.
Defined.

Lemma Insert_Delete_round_trip_witness :
  Has set_123 "4"%string = false /\
  (Insert_value Nil ["4"%string] = None /\
   option_map (fun v => Delete_value v ["4"%string])
     (Insert_value (Made set_123) ["4"%string])
   = Some (Made (if "4"%string == "4"%string then set_123
                 else (set_123 ++ ["4"%string])%list))).
Proof.
  split; [reflexivity|].
  apply (Insert_Delete_round_trip set_123 "4"%string); reflexivity.
Defined.

Lemma NaN_key_stays_witness :
  (NaN == NaN) = false /\
  (Insert_value Nil [NaN] = None /\
   Insert_value (Made set_1_NaN) [NaN]
   = Some (Made (Insert set_1_NaN [NaN])) /\
   Len (Insert set_1_NaN [NaN]) = (Len set_1_NaN + 1)%Z /\
   Has (Insert set_1_NaN [NaN]) NaN = false /\
   In NaN (contents (Delete_value (Made (Insert set_1_NaN [NaN]))
                       keys_NaN_2))).
Proof.
  split; [reflexivity|].
  apply (NaN_key_stays set_1_NaN NaN keys_NaN_2); reflexivity.
Defined.

Lemma HasAny_Intersection_witness :
  wf set_123 /\
  HasAny set_123 keys_221
  = negb (Len (Intersection set_123 (New keys_221)) =? 0)%Z.
Proof.
  split; [reflexivity|].
  apply (HasAny_Intersection set_123 keys_221); reflexivity.
Defined.

Lemma Difference_members_witness :
  wf set_2_NaN_1 /\ wf set_NaN_1 /\
  ((forall x, Has (Difference set_2_NaN_1 set_NaN_1) x
              = Has set_2_NaN_1 x && negb (Has set_NaN_1 x)) /\
   Intersection (Difference set_2_NaN_1 set_NaN_1) set_NaN_1 = [] /\
   (Len (Difference set_2_NaN_1 set_NaN_1) <= Len set_2_NaN_1)%Z /\
   (Difference set_2_NaN_1 set_2_NaN_1 = [] <->
    self_equal set_2_NaN_1 = true)).
Proof.
  split; [reflexivity|]. split; [reflexivity|].
  apply (Difference_members set_2_NaN_1 set_NaN_1); reflexivity.
Defined.

Lemma Union_Intersection_Len_witness :
  wf set_2_NaN_1 /\ wf set_NaN_1 /\
  (Len (Union set_2_NaN_1 set_NaN_1)
   + Len (Intersection set_2_NaN_1 set_NaN_1))%Z
  = (Len set_2_NaN_1 + Len set_NaN_1)%Z.
Proof.
  split; [reflexivity|]. split; [reflexivity|].
  apply (Union_Intersection_Len set_2_NaN_1 set_NaN_1); reflexivity.
Defined.

Lemma empty_operand_witness :
  wf set_NaN_1 /\
  (Difference set_NaN_1 (New []) = set_NaN_1 /\
   Difference (New []) set_NaN_1 = [] /\
   Union set_NaN_1 (New []) = set_NaN_1 /\
   Union (New []) set_NaN_1 = set_NaN_1 /\
   Intersection set_NaN_1 (New []) = [] /\
   Intersection (New []) set_NaN_1 = []).
Proof.
  split; [reflexivity|]. apply (empty_operand set_NaN_1); reflexivity.
Defined.

Lemma Difference_Intersection_recompose_witness :
  wf set_123 /\ wf set_1245 /\
  Equal (Union (Difference set_123 set_1245)
               (Intersection set_123 set_1245)) set_123
  = self_equal set_123.
Proof.
  split; [reflexivity|]. split; [reflexivity|].
  apply (Difference_Intersection_recompose set_123 set_1245); reflexivity.
Defined.

Lemma Equal_equivalence_witness :
  wf set_123 /\ wf (New keys_221) /\ wf (New keys_12) /\
  (Equal set_123 set_123 = self_equal set_123 /\
   (Equal set_123 (New keys_221) = true ->
    Equal (New keys_221) (New keys_12) = true ->
    Equal set_123 (New keys_12) = true)).
Proof.
  split; [reflexivity|]. split; [reflexivity|]. split; [reflexivity|].
  apply (Equal_equivalence set_123 (New keys_221) (New keys_12));
    reflexivity.
Defined.

Lemma IsSuperset_order_witness :
  wf set_123 /\ wf (New keys_12) /\
  ((IsSuperset set_123 (New keys_12) = true ->
    IsSuperset (New keys_12) (New keys_221) = true ->
    IsSuperset set_123 (New keys_221) = true) /\
   (IsSuperset set_123 (New keys_12) = true ->
    (Len (New keys_12) <= Len set_123)%Z) /\
   IsSuperset set_123 (New keys_12) && IsSuperset (New keys_12) set_123
   = Equal set_123 (New keys_12)).
Proof.
  split; [reflexivity|]. split; [reflexivity|].
  apply (IsSuperset_order set_123 (New keys_12) (New keys_221));
    reflexivity.
Defined.

Lemma New_Equal_members_witness :
  self_equal keys_221 = true /\ self_equal keys_12 = true /\
  (Equal (New keys_221) (New keys_12) = true <->
   forall x, Has keys_221 x = Has keys_12 x).
Proof.
  split; [reflexivity|]. split; [reflexivity|].
  apply (New_Equal_members keys_221 keys_12); reflexivity.
Defined.

Lemma List_deterministic_witness :
  wf set_zyxa /\ Permutation set_zyxa (rev set_zyxa) /\
  less_of_kind (T := string) (@Key_Kind string _) = Some string_less /\
  (order_of (@Key_Kind string _) = ByFloat -> self_equal set_zyxa = true) /\
  List set_zyxa = List (rev set_zyxa).
Proof.
  split; [reflexivity|]. split; [apply Permutation_rev|].
  split; [reflexivity|]. split; [reflexivity|].
  apply (List_deterministic insertionSort_SortSlice insertionSort_SortSlice
           insertionSort_Laws insertionSort_Laws
           set_zyxa (rev set_zyxa) string_less);
    try reflexivity.
  apply Permutation_rev.
Defined.

Lemma List_every_kind_witness :
  (order_of (@Key_Kind bool _) = Unordered ->
   List (New [true; false]) = New [true; false]) /\
  length (List (New [true; false])) = length (New [true; false]) /\
  (forall e, In e (List (New [true; false])) <-> In e (New [true; false])).
Proof.
  exact (List_every_kind insertionSort_SortSlice insertionSort_Laws
           (New [true; false])).
Defined.

Lemma Insert_Delete_in_place_witness :
  0 < length [set_123; set_1245] /\
  ((length (snd (Store.Insert 0 keys_221 [set_123; set_1245]))
    = length [set_123; set_1245] /\
    Store.deref (snd (Store.Insert 0 keys_221 [set_123; set_1245])) 0
    = Insert (Store.deref [set_123; set_1245] 0) keys_221 /\
    forall r', r' <> 0 ->
      Store.deref (snd (Store.Insert 0 keys_221 [set_123; set_1245])) r'
      = Store.deref [set_123; set_1245] r') /\
   (length (snd (Store.Delete 0 keys_221 [set_123; set_1245]))
    = length [set_123; set_1245] /\
    Store.deref (snd (Store.Delete 0 keys_221 [set_123; set_1245])) 0
    = Delete (Store.deref [set_123; set_1245] 0) keys_221 /\
    forall r', r' <> 0 ->
      Store.deref (snd (Store.Delete 0 keys_221 [set_123; set_1245])) r'
      = Store.deref [set_123; set_1245] r')).
Proof.
  split; [simpl; lia|].
  apply (Insert_Delete_in_place 0 keys_221 [set_123; set_1245]).
  simpl; lia.
Defined.
